(** * Placeholder resolution for container command lines

    A shallow embedding of
      - [tfx/dsl/components/_command_line_resolver.py]
      - [tfx/orchestration/launcher/container_common.py]
    and the properties their specification states about them.

    Python values are a first-order inductive type, exceptions are the
    [Raise] branch of a result type, dictionaries that are only read are
    finite maps, dictionaries that are built by a comprehension are
    insertion-ordered association lists. *)

From Stdlib Require Import ZArith String List Lia.
From stdpp Require Import base option list gmap strings.

Local Open Scope string_scope.
Local Open Scope list_scope.
#[local] Set Warnings "-register-all".

(** ** Exceptions and results *)

Inductive exn : Type :=
| TypeError
| AssertionError
| KeyError
| IndexError
| AttributeError
| TemplateSyntaxError
| OtherError (name : string).

(** [KeyError] and [IndexError] are the two subclasses of [LookupError]. *)
Definition is_LookupError (e : exn) : bool :=
  match e with
  | KeyError | IndexError => true
  | _ => false
  end.

Inductive result (A : Type) : Type :=
| Ok (x : A)
| Raise (e : exn).
Arguments Ok {A} x.
Arguments Raise {A} e.

Global Instance result_ret : MRet result := λ A x, Ok x.
Global Instance result_bind : MBind result := λ A B f m,
  match m with
  | Ok x => f x
  | Raise e => Raise e
  end.
Global Instance result_fmap : FMap result := λ A B f m,
  match m with
  | Ok x => Ok (f x)
  | Raise e => Raise e
  end.

Definition is_Ok {A} (r : result A) : bool :=
  match r with Ok _ => true | Raise _ => false end.

(** ** Python values *)

(** The objects the two modules handle.  [VModel] is an instance of a class
    that exposes an [attribute_map] (a Swagger generated model): the table
    from attribute names to wire names, the other attributes of the instance,
    and, when the class derives from [dict], the items it holds as a
    dictionary.  [VObject] is an instance of any other class.  The three
    placeholder classes come from [tfx.dsl.components.structures]. *)
Inductive value : Type :=
| VNone
| VBool (b : bool)
| VInt (z : Z)
| VStr (s : string)
| VList (items : list value)
| VDict (items : list (string * value))
| VModel (attribute_map : list (string * string))
         (attrs : list (string * value))
         (dict_items : option (list (string * value)))
| VObject (cls : string) (attrs : list (string * value))
| InputValuePlaceholder (input_name : string)
| InputUriPlaceholder (input_name : string)
| OutputUriPlaceholder (output_name : string).

(** [isinstance(v, str)], which is also [isinstance(v, Text)]. *)
Definition isinstance_str (v : value) : bool :=
  match v with VStr _ => true | _ => false end.

(** [assert cond], as the interpreter runs it unless it is started with
    [-O]. *)
Definition assert (cond : bool) : result unit :=
  if cond then Ok tt else Raise AssertionError.

(** Modelled from the spec: [tfx.types.Artifact], of which the code reads the
    [uri] only ("an opaque handle exposing a single resolvable URI"). *)
Record Artifact : Type := { uri : string }.

(** Modelled from the spec: [structures.ContainerSpec], a container
    specification in typed-placeholder mode; [command] may be absent. *)
Module structures.
Record ContainerSpec : Type :=
  { image : value; command : option (list value) }.
End structures.

(** Modelled from the spec: [executor_spec.ExecutorContainerSpec]; [command]
    and [args] may be absent, and a specification built without [args] has
    the empty sequence there. *)
Module executor_spec.
Record ExecutorContainerSpec : Type :=
  { image : value;
    command : option (list value);
    args : option (list value) }.

Definition default_args : option (list value) := Some [].
End executor_spec.

(** [seq or []] *)
Definition or_empty {A} (seq : option (list A)) : list A :=
  match seq with
  | Some (x :: l) => x :: l
  | _ => []
  end.

(** ** [_command_line_resolver.resolve_command_line] *)

Section Resolver.
Variables input_value_getter input_uri_getter output_uri_getter :
  string → result value.

Definition expand_command_line_arg (cmd_arg : value) : result value :=
  match cmd_arg with
  | VStr _ => Ok cmd_arg
  | InputValuePlaceholder input_name => input_value_getter input_name
  | InputUriPlaceholder input_name => input_uri_getter input_name
  | OutputUriPlaceholder output_name => output_uri_getter output_name
  | _ => Raise TypeError
  end.

(** The body of the [for] loop, from the tokens still to visit and the
    list built so far. *)
Fixpoint resolve_loop (todo resolved_command_line : list value)
  : result (list value) :=
  match todo with
  | [] => Ok resolved_command_line
  | cmd_arg :: todo' =>
      resolved_cmd_arg ← expand_command_line_arg cmd_arg;
      _ ← assert (isinstance_str resolved_cmd_arg);
      resolve_loop todo' (resolved_command_line ++ [resolved_cmd_arg])
  end.

Definition resolve_command_line (container_spec : structures.ContainerSpec)
  : result (list value) :=
  resolve_loop (or_empty (structures.command container_spec)) [].
End Resolver.

(** ** [container_common.resolve_command_line_for_non_managed] *)

(** [d[k]] on a dictionary *)
Definition dict_getitem {V} (d : gmap string V) (k : string) : result V :=
  match d !! k with
  | Some v => Ok v
  | None => Raise KeyError
  end.

(** [l[i]] on a list, for an index that is not negative *)
Definition list_getitem {V} (l : list V) (i : nat) : result V :=
  match l !! i with
  | Some v => Ok v
  | None => Raise IndexError
  end.

Definition input_value_getter (exec_properties : gmap string value)
    (input_name : string) : result value :=
  dict_getitem exec_properties input_name.

Definition input_uri_getter (input_dict : gmap string (list Artifact))
    (input_name : string) : result value :=
  artifacts ← dict_getitem input_dict input_name;
  artifact ← list_getitem artifacts 0;
  Ok (VStr (uri artifact)).

Definition output_uri_getter (output_dict : gmap string (list Artifact))
    (output_name : string) : result value :=
  artifacts ← dict_getitem output_dict output_name;
  artifact ← list_getitem artifacts 0;
  Ok (VStr (uri artifact)).

Definition resolve_command_line_for_non_managed
    (container_spec : structures.ContainerSpec)
    (input_dict output_dict : gmap string (list Artifact))
    (exec_properties : gmap string value) : result (list value) :=
  resolve_command_line
    (input_value_getter exec_properties)
    (input_uri_getter input_dict)
    (output_uri_getter output_dict)
    container_spec.

(** ** Template rendering and [container_common.resolve_container_template] *)

(** A computation over a state, which may raise.  For the rendering the
    state is the list of the texts handed to the template engine so far. *)
Definition M (S A : Type) : Type := S → result A * S.

Global Instance M_ret {S} : MRet (M S) := λ A x s, (Ok x, s).
Global Instance M_bind {S} : MBind (M S) := λ A B f m s,
  match m s with
  | (Ok x, s') => f x s'
  | (Raise e, s') => (Raise e, s')
  end.

(** A computation without effect on the state. *)
Definition lift {S A} (r : result A) : M S A := λ s, (r, s).

(** The rendering context: the three bindings [input_dict], [output_dict]
    and [exec_properties], bound to the dictionaries as they were passed. *)
Record context : Type :=
  { ctx_input_dict : gmap string (list Artifact);
    ctx_output_dict : gmap string (list Artifact);
    ctx_exec_properties : gmap string value }.

(** The template in either representation; the constructor is what
    [isinstance(container_spec_tmpl, structures.ContainerSpec)] tests. *)
Inductive container_spec_tmpl : Type :=
| TypedPlaceholders (spec : structures.ContainerSpec)
| FreeText (spec : executor_spec.ExecutorContainerSpec).

(** [not items], for a field that holds a list or [None] *)
Definition is_empty {A} (items : option (list A)) : bool :=
  match items with
  | Some (_ :: _) => false
  | _ => true
  end.

Section Renderer.
(** [jinja2.Template(text).render(context)]: the external engine, a
    function of the text and of the context. *)
Variable jinja2_render : value → context → result value.

Definition _render_text (text : value) (ctx : context)
  : M (list value) value :=
  λ calls, (jinja2_render text ctx, calls ++ [text]).

(** [[_render_text(item, context) for item in items]] *)
Fixpoint render_each (items : list value) (ctx : context)
  : M (list value) (list value) :=
  match items with
  | [] => mret []
  | item :: items' =>
      rendered ← _render_text item ctx;
      rest ← render_each items' ctx;
      mret (rendered :: rest)
  end.

Definition _render_items (items : option (list value)) (ctx : context)
  : M (list value) (option (list value)) :=
  if is_empty items then mret items
  else rendered ← render_each (or_empty items) ctx; mret (Some rendered).

Definition resolve_container_template
    (container_spec_tmpl : container_spec_tmpl)
    (input_dict output_dict : gmap string (list Artifact))
    (exec_properties : gmap string value)
  : M (list value) executor_spec.ExecutorContainerSpec :=
  let ctx := {| ctx_input_dict := input_dict;
                ctx_output_dict := output_dict;
                ctx_exec_properties := exec_properties |} in
  match container_spec_tmpl with
  | TypedPlaceholders spec =>
      command ← lift (resolve_command_line_for_non_managed
                        spec input_dict output_dict exec_properties);
      mret {| executor_spec.image := structures.image spec;
              executor_spec.command := Some command;
              executor_spec.args := executor_spec.default_args |}
  | FreeText spec =>
      image ← _render_text (executor_spec.image spec) ctx;
      command ← _render_items (executor_spec.command spec) ctx;
      args ← _render_items (executor_spec.args spec) ctx;
      mret {| executor_spec.image := image;
              executor_spec.command := command;
              executor_spec.args := args |}
  end.
End Renderer.

(** ** [container_common.to_swagger_dict] *)

(** *** Dictionaries in insertion order *)

(** [d[k] = v]: a key already present keeps its place and takes the new
    value, a new key goes last. *)
Fixpoint dict_set {V} (d : list (string * V)) (k : string) (v : V)
  : list (string * V) :=
  match d with
  | [] => [(k, v)]
  | (k', v') :: d' =>
      if String.eqb k' k then (k', v) :: d' else (k', v') :: dict_set d' k v
  end.

(** [d.get(k)] *)
Fixpoint dict_get {V} (d : list (string * V)) (k : string) : option V :=
  match d with
  | [] => None
  | (k', v') :: d' => if String.eqb k' k then Some v' else dict_get d' k
  end.

Definition dict_keys {V} (d : list (string * V)) : list string := map fst d.

(** *** Truth value and attribute access *)

(** [bool(v)]: [None], [False], zero, the empty string and the empty
    containers are false; an instance is true unless its class derives from
    [dict] and it holds no item. *)
Definition truthy (v : value) : bool :=
  match v with
  | VNone => false
  | VBool b => b
  | VInt z => negb (Z.eqb z 0)
  | VStr s => negb (String.eqb s "")
  | VList items => negb (is_empty (Some items))
  | VDict items => negb (is_empty (Some items))
  | VModel _ _ (Some items) => negb (is_empty (Some items))
  | VModel _ _ None => true
  | VObject _ _ => true
  | InputValuePlaceholder _ | InputUriPlaceholder _ | OutputUriPlaceholder _ =>
      true
  end.

(** [config.attribute_map] as the dictionary it is. *)
Definition attribute_map_value (attribute_map : list (string * string))
  : value :=
  VDict (map (λ entry, (entry.1, VStr entry.2)) attribute_map).

Definition attr_lookup (attrs : list (string * value)) (name : string)
  : result value :=
  match dict_get attrs name with
  | Some v => Ok v
  | None => Raise AttributeError
  end.

(** [getattr(config, name)] *)
Definition getattr (config : value) (name : string) : result value :=
  match config with
  | VModel attribute_map attrs _ =>
      if String.eqb name "attribute_map"
      then Ok (attribute_map_value attribute_map)
      else attr_lookup attrs name
  | VObject _ attrs =>
      if String.eqb name "attribute_map" then Raise AttributeError
      else attr_lookup attrs name
  | InputValuePlaceholder input_name | InputUriPlaceholder input_name =>
      if String.eqb name "input_name" then Ok (VStr input_name)
      else Raise AttributeError
  | OutputUriPlaceholder output_name =>
      if String.eqb name "output_name" then Ok (VStr output_name)
      else Raise AttributeError
  | _ => Raise AttributeError
  end.

(** [hasattr(config, name)] *)
Definition hasattr (config : value) (name : string) : bool :=
  is_Ok (getattr config name).

(** *** The conversion *)

(** The comprehension over [config.attribute_map.items()], given for every
    attribute name what [getattr] returns together with what the conversion
    makes of it: an entry is added under the wire name when the attribute is
    true. *)
Fixpoint model_fields
    (attr : string → result (value * result value))
    (attribute_map : list (string * string))
    (acc : list (string * value)) : result (list (string * value)) :=
  match attribute_map with
  | [] => Ok acc
  | (key, swagger_name) :: attribute_map' =>
      a ← attr key;
      if truthy a.1
      then v ← a.2;
           model_fields attr attribute_map' (dict_set acc swagger_name v)
      else model_fields attr attribute_map' acc
  end.

(** What the conversion makes of [config.attribute_map] itself: a
    dictionary of strings, which are returned as they are. *)
Definition converted_attribute_map (attribute_map : list (string * string))
  : value :=
  VDict (fold_left (λ acc entry, dict_set acc entry.1 (VStr entry.2))
                   attribute_map []).

(** [getattr(config, name)] with its conversion, for a model: the table
    itself under the name [attribute_map], a stored attribute otherwise. *)
Definition model_attr (attribute_map : list (string * string))
    (stored : string → result (value * result value)) (name : string)
  : result (value * result value) :=
  if String.eqb name "attribute_map"
  then Ok (attribute_map_value attribute_map,
           Ok (converted_attribute_map attribute_map))
  else stored name.

(** The recursion is on the structure of the value: the attributes of a
    model are converted where they are stored, and the comprehension picks
    the ones the table names.  [to_swagger_dict_model] below gives the
    equation in the shape of the source. *)
Fixpoint to_swagger_dict (config : value) : result value :=
  match config with
  | VList items =>
      VList <$>
        (fix each (l : list value) : result (list value) :=
           match l with
           | [] => Ok []
           | x :: l' =>
               y ← to_swagger_dict x; ys ← each l'; Ok (y :: ys)
           end) items
  | VModel attribute_map attrs _ =>
      let stored :=
        (fix look (l : list (string * value)) (name : string)
           : result (value * result value) :=
           match l with
           | [] => Raise AttributeError
           | (k, v) :: l' =>
               if String.eqb k name then Ok (v, to_swagger_dict v)
               else look l' name
           end) attrs in
      VDict <$> model_fields (model_attr attribute_map stored)
                             attribute_map []
  | VDict items =>
      VDict <$>
        (fix each (l acc : list (string * value))
           : result (list (string * value)) :=
           match l with
           | [] => Ok acc
           | (key, value) :: l' =>
               v ← to_swagger_dict value; each l' (dict_set acc key v)
           end) items []
  | _ => Ok config
  end.

(** The two comprehensions as the source writes them, over the function
    itself. *)
Fixpoint model_comprehension (config : value)
    (attribute_map : list (string * string))
    (acc : list (string * value)) : result (list (string * value)) :=
  match attribute_map with
  | [] => Ok acc
  | (key, swagger_name) :: attribute_map' =>
      a ← getattr config key;
      if truthy a
      then v ← (a' ← getattr config key; to_swagger_dict a');
           model_comprehension config attribute_map'
                               (dict_set acc swagger_name v)
      else model_comprehension config attribute_map' acc
  end.

Fixpoint dict_comprehension (items acc : list (string * value))
  : result (list (string * value)) :=
  match items with
  | [] => Ok acc
  | (key, value) :: items' =>
      v ← to_swagger_dict value;
      dict_comprehension items' (dict_set acc key v)
  end.

(** [isinstance(config, list)] and [isinstance(config, dict)] *)
Definition isinstance_list (config : value) : bool :=
  match config with VList _ => true | _ => false end.

Definition isinstance_dict (config : value) : bool :=
  match config with
  | VDict _ | VModel _ _ (Some _) => true
  | _ => false
  end.

(** [list(config)], [config.items()] and [config.attribute_map.items()] *)
Definition list_items (config : value) : list value :=
  match config with VList items => items | _ => [] end.

Definition dict_items (config : value) : list (string * value) :=
  match config with
  | VDict items | VModel _ _ (Some items) => items
  | _ => []
  end.

Definition attribute_map_items (config : value) : list (string * string) :=
  match config with VModel attribute_map _ _ => attribute_map | _ => [] end.

(** ** The same functions over a store of objects

    The objects the functions receive live in a store and are passed by
    reference; a call may allocate objects and update them.  The state also
    keeps the texts handed to the template engine. *)
Module Heap.

(** References are positions in the store. *)
Abbreviation loc := nat (only parsing).

Inductive obj : Type :=
| OList (items : list value)
| OArtifactDict (d : gmap string (list Artifact))
| OProperties (d : gmap string value)
| OContainerSpec (image : value) (command : option loc)
| OExecutorContainerSpec (image : value) (command args : option loc)
| OContext (input_dict output_dict exec_properties : loc).

Record state : Type := { heap : list obj; calls : list value }.

(** Creating an object: it takes the next free reference. *)
Definition alloc (o : obj) : M state loc :=
  λ st, (Ok (length (heap st)),
         {| heap := heap st ++ [o]; calls := calls st |}).

(** A computation that only reads the store. *)
Definition reading {A} (f : list obj → result A) : M state A :=
  λ st, (f (heap st), st).

Definition read_list (h : list obj) (l : loc) : result (list value) :=
  match h !! l with
  | Some (OList items) => Ok items
  | _ => Raise TypeError
  end.

(** [seq or []] for a field that holds a list object or [None] *)
Definition or_empty (h : list obj) (seq : option loc)
  : result (list value) :=
  match seq with
  | None => Ok []
  | Some l => read_list h l
  end.

(** [l.append(v)] *)
Definition append (l : loc) (v : value) : M state unit :=
  λ st,
    match heap st !! l with
    | Some (OList items) =>
        (Ok tt, {| heap := <[l := OList (items ++ [v])]> (heap st);
                   calls := calls st |})
    | _ => (Raise AttributeError, st)
    end.

Section Resolver.
(** The getters are side-effect-free: they read the store. *)
Variables input_value_getter input_uri_getter output_uri_getter :
  string → list obj → result value.

Definition expand_command_line_arg (cmd_arg : value) (h : list obj)
  : result value :=
  match cmd_arg with
  | VStr _ => Ok cmd_arg
  | InputValuePlaceholder input_name => input_value_getter input_name h
  | InputUriPlaceholder input_name => input_uri_getter input_name h
  | OutputUriPlaceholder output_name => output_uri_getter output_name h
  | _ => Raise TypeError
  end.

Fixpoint resolve_loop (todo : list value) (resolved_command_line : loc)
  : M state unit :=
  match todo with
  | [] => mret tt
  | cmd_arg :: todo' =>
      resolved_cmd_arg ← reading (expand_command_line_arg cmd_arg);
      _ ← lift (assert (isinstance_str resolved_cmd_arg));
      _ ← append resolved_command_line resolved_cmd_arg;
      resolve_loop todo' resolved_command_line
  end.

Definition command_of (h : list obj) (container_spec : loc)
  : result (option loc) :=
  match h !! container_spec with
  | Some (OContainerSpec _ command) => Ok command
  | Some (OExecutorContainerSpec _ command _) => Ok command
  | _ => Raise AttributeError
  end.

(** The loop goes over the command as it is when the loop starts: nothing
    writes to that list while the loop runs, the getters only read and
    [append] goes to the new list. *)
Definition resolve_command_line (container_spec : loc) : M state loc :=
  resolved_command_line ← alloc (OList []);
  command ← reading (λ h, command_of h container_spec);
  todo ← reading (λ h, or_empty h command);
  _ ← resolve_loop todo resolved_command_line;
  mret resolved_command_line.
End Resolver.

Definition input_value_getter (exec_properties : loc)
    (input_name : string) (h : list obj) : result value :=
  match h !! exec_properties with
  | Some (OProperties d) => dict_getitem d input_name
  | _ => Raise TypeError
  end.

Definition input_uri_getter (input_dict : loc)
    (input_name : string) (h : list obj) : result value :=
  match h !! input_dict with
  | Some (OArtifactDict d) =>
      artifacts ← dict_getitem d input_name;
      artifact ← list_getitem artifacts 0;
      Ok (VStr (uri artifact))
  | _ => Raise TypeError
  end.

Definition output_uri_getter (output_dict : loc)
    (output_name : string) (h : list obj) : result value :=
  match h !! output_dict with
  | Some (OArtifactDict d) =>
      artifacts ← dict_getitem d output_name;
      artifact ← list_getitem artifacts 0;
      Ok (VStr (uri artifact))
  | _ => Raise TypeError
  end.

Definition resolve_command_line_for_non_managed
    (container_spec input_dict output_dict exec_properties : loc)
  : M state loc :=
  resolve_command_line
    (input_value_getter exec_properties)
    (input_uri_getter input_dict)
    (output_uri_getter output_dict)
    container_spec.

Section Renderer.
(** The engine reads the context, and through it the dictionaries. *)
Variable jinja2_render : value → loc → list obj → result value.

Definition _render_text (text : value) (context : loc) : M state value :=
  λ st, (jinja2_render text context (heap st),
         {| heap := heap st; calls := calls st ++ [text] |}).

Fixpoint render_each (items : list value) (context : loc)
  : M state (list value) :=
  match items with
  | [] => mret []
  | item :: items' =>
      rendered ← _render_text item context;
      rest ← render_each items' context;
      mret (rendered :: rest)
  end.

(** [if not items: return items] hands back the object it was given. *)
Definition _render_items (items : option loc) (context : loc)
  : M state (option loc) :=
  texts ← reading (λ h, or_empty h items);
  if is_empty (Some texts) then mret items
  else
    rendered ← render_each texts context;
    new ← alloc (OList rendered);
    mret (Some new).

Definition resolve_container_template
    (container_spec_tmpl input_dict output_dict exec_properties : loc)
  : M state loc :=
  context ← alloc (OContext input_dict output_dict exec_properties);
  tmpl ← reading (λ h, match h !! container_spec_tmpl with
                       | Some o => Ok o
                       | None => Raise TypeError
                       end);
  match tmpl with
  | OContainerSpec image _ =>
      command ← resolve_command_line_for_non_managed
                  container_spec_tmpl input_dict output_dict
                  exec_properties;
      args ← alloc (OList []);
      alloc (OExecutorContainerSpec image (Some command) (Some args))
  | OExecutorContainerSpec image command args =>
      image' ← _render_text image context;
      command' ← _render_items command context;
      args' ← _render_items args context;
      alloc (OExecutorContainerSpec image' command' args')
  | _ => lift (Raise AttributeError)
  end.
End Renderer.

(** *** Reading a store back *)

Definition read_field (h : list obj) (field : option loc)
  : option (option (list value)) :=
  match field with
  | None => Some None
  | Some l =>
      match h !! l with
      | Some (OList items) => Some (Some items)
      | _ => None
      end
  end.

(** The template a reference stands for. *)
Definition read_tmpl (h : list obj) (l : loc) : option container_spec_tmpl :=
  match h !! l with
  | Some (OContainerSpec image command) =>
      c ← read_field h command;
      Some (TypedPlaceholders
              {| structures.image := image; structures.command := c |})
  | Some (OExecutorContainerSpec image command args) =>
      c ← read_field h command;
      a ← read_field h args;
      Some (FreeText {| executor_spec.image := image;
                        executor_spec.command := c;
                        executor_spec.args := a |})
  | _ => None
  end.

Definition read_context (h : list obj) (l : loc) : option context :=
  match h !! l with
  | Some (OContext i o e) =>
      match h !! i, h !! o, h !! e with
      | Some (OArtifactDict input_dict), Some (OArtifactDict output_dict),
        Some (OProperties exec_properties) =>
          Some {| ctx_input_dict := input_dict;
                  ctx_output_dict := output_dict;
                  ctx_exec_properties := exec_properties |}
      | _, _, _ => None
      end
  | _ => None
  end.

End Heap.

(** ** Structural induction on values *)

(** The induction principle that goes through the lists of a value. *)
Section ValueInduction.
Variable P : value → Prop.
Hypothesis HNone : P VNone.
Hypothesis HBool : ∀ b, P (VBool b).
Hypothesis HInt : ∀ z, P (VInt z).
Hypothesis HStr : ∀ s, P (VStr s).
Hypothesis HList : ∀ items, Forall P items → P (VList items).
Hypothesis HDict :
  ∀ items, Forall (λ kv : string * value, P kv.2) items → P (VDict items).
Hypothesis HModel :
  ∀ attribute_map attrs dict_items,
    Forall (λ kv : string * value, P kv.2) attrs →
    Forall (λ kv : string * value, P kv.2) (or_empty dict_items) →
    P (VModel attribute_map attrs dict_items).
Hypothesis HObject :
  ∀ cls attrs,
    Forall (λ kv : string * value, P kv.2) attrs → P (VObject cls attrs).
Hypothesis HInputValue : ∀ name, P (InputValuePlaceholder name).
Hypothesis HInputUri : ∀ name, P (InputUriPlaceholder name).
Hypothesis HOutputUri : ∀ name, P (OutputUriPlaceholder name).

Fixpoint value_induction (v : value) : P v :=
  let each :=
    fix each (l : list value) : Forall P l :=
      match l with
      | [] => Forall_nil_2 P
      | x :: l' => Forall_cons_2 P x l' (value_induction x) (each l')
      end in
  let each_item :=
    fix each_item (l : list (string * value))
      : Forall (λ kv : string * value, P kv.2) l :=
      match l with
      | [] => Forall_nil_2 _
      | kv :: l' =>
          Forall_cons_2 (λ kv : string * value, P kv.2) kv l'
                        (value_induction kv.2) (each_item l')
      end in
  match v with
  | VNone => HNone
  | VBool b => HBool b
  | VInt z => HInt z
  | VStr s => HStr s
  | VList items => HList items (each items)
  | VDict items => HDict items (each_item items)
  | VModel attribute_map attrs dict_items =>
      HModel attribute_map attrs dict_items (each_item attrs)
        match dict_items with
        | Some (kv :: l') =>
            Forall_cons_2 (λ kv : string * value, P kv.2) kv l'
                          (value_induction kv.2) (each_item l')
        | _ => Forall_nil_2 _
        end
  | VObject cls attrs => HObject cls attrs (each_item attrs)
  | InputValuePlaceholder name => HInputValue name
  | InputUriPlaceholder name => HInputUri name
  | OutputUriPlaceholder name => HOutputUri name
  end.
End ValueInduction.

(** The models of a value have the attributes their tables name: what the
    Swagger generator produces.  Instances of other classes are not looked
    into. *)
Fixpoint models_complete (v : value) : bool :=
  match v with
  | VList items => forallb models_complete items
  | VDict items => forallb (λ kv, models_complete kv.2) items
  | VModel attribute_map attrs _ =>
      forallb (λ entry : string * string,
                 String.eqb entry.1 "attribute_map"
                 || bool_decide (entry.1 ∈ dict_keys attrs))
              attribute_map
      && forallb (λ kv, models_complete kv.2) attrs
  | _ => true
  end.

(** ** Vocabulary of the properties *)

(** The tokens of a command in typed-placeholder mode
    ([structures.CommandlineArgumentType]). *)
Definition is_command_token (v : value) : bool :=
  match v with
  | VStr _ | InputValuePlaceholder _ | InputUriPlaceholder _
  | OutputUriPlaceholder _ => true
  | _ => false
  end.

Definition is_placeholder (v : value) : bool :=
  match v with
  | InputValuePlaceholder _ | InputUriPlaceholder _
  | OutputUriPlaceholder _ => true
  | _ => false
  end.

Section ResolverVocabulary.
Variables gv gi go : string → result value.

(** One turn of the loop: the token expanded and checked to be text. *)
Definition resolve_token (cmd_arg : value) : result value :=
  v ← expand_command_line_arg gv gi go cmd_arg;
  _ ← assert (isinstance_str v);
  Ok v.

(** A token and the text it stands for. *)
Inductive resolves_to : value → value → Prop :=
| resolves_literal s :
    resolves_to (VStr s) (VStr s)
| resolves_input_value name s :
    gv name = Ok (VStr s) →
    resolves_to (InputValuePlaceholder name) (VStr s)
| resolves_input_uri name s :
    gi name = Ok (VStr s) →
    resolves_to (InputUriPlaceholder name) (VStr s)
| resolves_output_uri name s :
    go name = Ok (VStr s) →
    resolves_to (OutputUriPlaceholder name) (VStr s).
End ResolverVocabulary.

(** Getters that return text for every name. *)
Definition text_getter (g : string → string) : string → result value :=
  λ name, Ok (VStr (g name)).

(** The text of a token under text getters. *)
Definition token_text (tv ti to : string → string) (cmd_arg : value)
  : value :=
  match cmd_arg with
  | InputValuePlaceholder name => VStr (tv name)
  | InputUriPlaceholder name => VStr (ti name)
  | OutputUriPlaceholder name => VStr (to name)
  | _ => cmd_arg
  end.

(** A command of one token. *)
Definition single (image tok : value) : structures.ContainerSpec :=
  {| structures.image := image; structures.command := Some [tok] |}.

(** A field and what the rendering makes of it: an empty or absent field is
    handed back as it is, the elements of another one are rendered one by
    one. *)
Definition field_rendered (jinja2_render : value → context → result value)
    (ctx : context) (items out : option (list value)) : Prop :=
  if is_empty items then out = items
  else ∃ l, out = Some l
            ∧ Forall2 (λ text rendered, jinja2_render text ctx = Ok rendered)
                      (or_empty items) l.

(** Getters over the store that give, on the store [h0] and on every store
    that extends it, what the functions [pv], [pi], [po] give. *)
Definition getters_read
    (gv gi go : string → list Heap.obj → result value)
    (pv pi po : string → result value) (h0 : list Heap.obj) : Prop :=
  ∀ name h', h0 `prefix_of` h' →
    gv name h' = pv name ∧ gi name h' = pi name ∧ go name h' = po name.

(** An engine over the store that gives, for the context at [ctx_loc], on
    the store [h0] and on every store that extends it, what the function
    [jinja2_render] gives for the context [ctx]. *)
Definition engine_reads
    (heap_jinja2_render : value → nat → list Heap.obj → result value)
    (jinja2_render : value → context → result value)
    (ctx_loc : nat) (ctx : context) (h0 : list Heap.obj) : Prop :=
  ∀ text h', h0 `prefix_of` h' →
    heap_jinja2_render text ctx_loc h' = jinja2_render text ctx.

(** Two outcomes that agree: the same error, or results that are related. *)
Definition same_outcome {A B} (R : A → B → Prop)
    (r : result A) (r' : result B) : Prop :=
  match r, r' with
  | Ok x, Ok y => R x y
  | Raise e, Raise e' => e = e'
  | _, _ => False
  end.

(** The arguments of a call of [resolve_container_template] on the store
    [st], and the values they stand for. *)
Definition arguments_stand_for (st : Heap.state)
    (tmpl input_dict output_dict exec_properties : nat)
    (t : container_spec_tmpl) (id od : gmap string (list Artifact))
    (ep : gmap string value) : Prop :=
  Heap.read_tmpl (Heap.heap st) tmpl = Some t
  ∧ Heap.heap st !! input_dict = Some (Heap.OArtifactDict id)
  ∧ Heap.heap st !! output_dict = Some (Heap.OArtifactDict od)
  ∧ Heap.heap st !! exec_properties = Some (Heap.OProperties ep).

(** The engine over the store reads, when called by
    [resolve_container_template] on the store [st], the context that the
    call creates. *)
Definition engine_reads_context
    (heap_jinja2_render : value → nat → list Heap.obj → result value)
    (jinja2_render : value → context → result value)
    (st : Heap.state) (input_dict output_dict exec_properties : nat)
    (id od : gmap string (list Artifact)) (ep : gmap string value) : Prop :=
  engine_reads heap_jinja2_render jinja2_render (length (Heap.heap st))
    {| ctx_input_dict := id; ctx_output_dict := od;
       ctx_exec_properties := ep |}
    (Heap.heap st ++ [Heap.OContext input_dict output_dict exec_properties]).

(** What [d[name][0].uri] looks at: nothing when the name is absent, the
    absence of a first artifact when the list is empty, the [uri] of the
    first artifact otherwise. *)
Definition first_uri (d : gmap string (list Artifact)) (name : string)
  : option (option string) :=
  (λ artifacts : list Artifact, uri <$> head artifacts) <$> d !! name.

(** A token that resolves to text over the three dictionaries. *)
Definition token_resolvable
    (input_dict output_dict : gmap string (list Artifact))
    (exec_properties : gmap string value) (cmd_arg : value) : bool :=
  match cmd_arg with
  | VStr _ => true
  | InputValuePlaceholder name =>
      match exec_properties !! name with
      | Some (VStr _) => true
      | _ => false
      end
  | InputUriPlaceholder name =>
      match input_dict !! name with
      | Some (_ :: _) => true
      | _ => false
      end
  | OutputUriPlaceholder name =>
      match output_dict !! name with
      | Some (_ :: _) => true
      | _ => false
      end
  | _ => false
  end.

(** A value in which no model is reached through lists and dictionaries,
    and whose dictionaries have keys that differ.  Instances of other
    classes are not looked into. *)
Fixpoint plain (v : value) : bool :=
  match v with
  | VList items => forallb plain items
  | VDict items =>
      bool_decide (NoDup (dict_keys items))
      && forallb (λ kv, plain kv.2) items
  | VModel _ _ _ => false
  | _ => true
  end.

(** * Properties *)

(** ** Results *)

Lemma result_bind_Ok {A B} (f : A → result B) (m : result A) (y : B) :
  m ≫= f = Ok y ↔ ∃ x, m = Ok x ∧ f x = Ok y.
Proof.
  destruct m as [x|e]; simpl.
  - split; [eauto | intros (x' & [= <-] & ?); done].
  - split; [done | intros (x' & ? & ?); done].
Qed.

Lemma result_bind_Raise {A B} (f : A → result B) (m : result A) (e : exn) :
  m ≫= f = Raise e ↔ m = Raise e ∨ ∃ x, m = Ok x ∧ f x = Raise e.
Proof.
  destruct m as [x|e']; simpl.
  - split; [eauto | intros [? | (x' & [= <-] & ?)]; done].
  - split; [intros [= ->]; eauto | intros [[= ->] | (x' & ? & ?)]; done].
Qed.

Lemma mapM_result_app {A B} (f : A → result B) (l1 l2 : list A) :
  mapM f (l1 ++ l2) =
  k1 ← mapM f l1; k2 ← mapM f l2; Ok (k1 ++ k2).
Proof.
  induction l1 as [|x l1 IH]; simpl.
  - destruct (mapM f l2); done.
  - destruct (f x) as [y|e]; simpl; [|done].
    rewrite IH. destruct (mapM f l1) as [k1|e]; simpl; [|done].
    destruct (mapM f l2); done.
Qed.

Lemma mapM_result_Ok {A B} (f : A → result B) (l : list A) (k : list B) :
  mapM f l = Ok k ↔ Forall2 (λ x y, f x = Ok y) l k.
Proof.
  revert k. induction l as [|x l IH]; intros k; simpl.
  - split; [intros [= <-]; constructor | by inversion 1].
  - split.
    + intros H. apply result_bind_Ok in H as (y & Hy & H).
      apply result_bind_Ok in H as (k' & Hk & [= <-]).
      constructor; [done | by apply IH].
    + inversion 1 as [|? y ? k' Hy Hk]; subst.
      rewrite Hy. simpl. apply IH in Hk. rewrite Hk. done.
Qed.

Lemma mapM_result_length {A B} (f : A → result B) (l : list A) (k : list B) :
  mapM f l = Ok k → length k = length l.
Proof.
  intros H. apply mapM_result_Ok in H. symmetry. by eapply Forall2_length.
Qed.

(** The first element that fails decides the error. *)
Lemma mapM_result_first_error {A B} (f : A → result B) pre x post k e :
  mapM f pre = Ok k → f x = Raise e →
  mapM f (pre ++ x :: post) = Raise e.
Proof.
  intros Hpre Hx. rewrite mapM_result_app, Hpre. simpl. by rewrite Hx.
Qed.

Lemma mapM_result_prefix_error {A B} (f : A → result B) pre post e :
  mapM f pre = Raise e → mapM f (pre ++ post) = Raise e.
Proof. intros Hpre. by rewrite mapM_result_app, Hpre. Qed.

Lemma mapM_result_Ok_total {A B} (f : A → result B) (l : list A) :
  Forall (λ x, is_Ok (f x) = true) l → ∃ k, mapM f l = Ok k.
Proof.
  induction 1 as [|x l Hx _ [k IH]]; simpl; [by eexists|].
  destruct (f x) as [y|]; [|done]. simpl. rewrite IH. by eexists.
Qed.

Lemma or_empty_Some {A} (l : list A) : or_empty (Some l) = l.
Proof. by destruct l. Qed.

(** ** The resolver *)

Section ResolverFacts.
Variables gv gi go : string → result value.

Lemma resolve_token_unfold tok :
  resolve_token gv gi go tok =
  v ← expand_command_line_arg gv gi go tok;
  _ ← assert (isinstance_str v); Ok v.
Proof. done. Qed.

Lemma resolve_loop_mapM (todo acc : list value) :
  resolve_loop gv gi go todo acc =
  l ← mapM (resolve_token gv gi go) todo; Ok (acc ++ l).
Proof.
  revert acc. induction todo as [|tok todo IH]; intros acc.
  - simpl. by rewrite app_nil_r.
  - cbn [resolve_loop mapM]. rewrite (resolve_token_unfold tok).
    destruct (expand_command_line_arg gv gi go tok) as [v|e]; simpl; [|done].
    destruct (isinstance_str v); simpl; [|done].
    rewrite IH. destruct (mapM _ todo) as [l|e]; simpl; [|done].
    by rewrite <- app_assoc.
Qed.

Lemma resolve_command_line_mapM spec :
  resolve_command_line gv gi go spec =
  mapM (resolve_token gv gi go) (or_empty (structures.command spec)).
Proof.
  unfold resolve_command_line. rewrite resolve_loop_mapM.
  destruct (mapM _ _); done.
Qed.

Lemma resolve_token_Ok tok v :
  resolve_token gv gi go tok = Ok v ↔ resolves_to gv gi go tok v.
Proof.
  unfold resolve_token. split.
  - intros H. apply result_bind_Ok in H as (w & Hw & H).
    destruct w; simpl in H; try done. injection H as <-.
    destruct tok; simpl in Hw; try done.
    + injection Hw as <-. constructor.
    + by constructor.
    + by constructor.
    + by constructor.
  - destruct 1 as [s|name s H|name s H|name s H]; simpl;
      rewrite ?H; done.
Qed.

Lemma resolve_token_text tok v :
  resolve_token gv gi go tok = Ok v → isinstance_str v = true.
Proof. intros H. apply resolve_token_Ok in H. by destruct H. Qed.

Lemma resolve_token_unknown tok :
  is_command_token tok = false →
  resolve_token gv gi go tok = Raise TypeError.
Proof. by destruct tok. Qed.

Lemma resolve_token_not_text tok v :
  expand_command_line_arg gv gi go tok = Ok v →
  isinstance_str v = false →
  resolve_token gv gi go tok = Raise AssertionError.
Proof. unfold resolve_token. intros -> . simpl. by intros ->. Qed.

Lemma resolve_command_line_Ok spec l :
  resolve_command_line gv gi go spec = Ok l ↔
  Forall2 (resolves_to gv gi go) (or_empty (structures.command spec)) l.
Proof.
  rewrite resolve_command_line_mapM, mapM_result_Ok.
  split; intros H; (eapply Forall2_impl; [exact H|]);
    intros ??; apply resolve_token_Ok.
Qed.

Lemma resolves_all_mapM pre :
  Forall (λ tok, ∃ v, resolves_to gv gi go tok v) pre →
  ∃ k, mapM (resolve_token gv gi go) pre = Ok k.
Proof.
  intros H. apply mapM_result_Ok_total.
  eapply Forall_impl; [exact H|]. intros tok [v Hv]; simpl.
  apply resolve_token_Ok in Hv. by rewrite Hv.
Qed.

(** The call fails as soon as one token does, with the error of the first
    one that fails. *)
Lemma resolve_command_line_first_error spec pre tok post e :
  or_empty (structures.command spec) = pre ++ tok :: post →
  Forall (λ tok, ∃ v, resolves_to gv gi go tok v) pre →
  resolve_token gv gi go tok = Raise e →
  resolve_command_line gv gi go spec = Raise e.
Proof.
  intros Hcmd Hpre Htok. rewrite resolve_command_line_mapM, Hcmd.
  destruct (resolves_all_mapM pre Hpre) as [k Hk].
  by eapply mapM_result_first_error.
Qed.

Lemma resolve_command_line_fails spec pre tok post e :
  or_empty (structures.command spec) = pre ++ tok :: post →
  resolve_token gv gi go tok = Raise e →
  ∃ e', resolve_command_line gv gi go spec = Raise e'.
Proof.
  intros Hcmd Htok. rewrite resolve_command_line_mapM, Hcmd.
  rewrite mapM_result_app.
  destruct (mapM _ pre) as [k|e']; simpl; [|by eexists].
  rewrite Htok. simpl. by eexists.
Qed.
End ResolverFacts.

(** ** The getters over the three dictionaries *)

Lemma input_value_getter_Ok (ep : gmap string value) name v :
  input_value_getter ep name = Ok v ↔ ep !! name = Some v.
Proof.
  unfold input_value_getter, dict_getitem.
  destruct (ep !! name); split; intros [= ->] || intros [=]; done.
Qed.

Lemma input_value_getter_absent (ep : gmap string value) name :
  ep !! name = None → input_value_getter ep name = Raise KeyError.
Proof. unfold input_value_getter, dict_getitem. by intros ->. Qed.

Lemma input_uri_getter_unfold (d : gmap string (list Artifact)) name :
  input_uri_getter d name =
  match d !! name with
  | None => Raise KeyError
  | Some [] => Raise IndexError
  | Some (artifact :: _) => Ok (VStr (uri artifact))
  end.
Proof.
  unfold input_uri_getter, dict_getitem, list_getitem.
  destruct (d !! name) as [[|a rest]|]; done.
Qed.

Lemma output_uri_getter_unfold (d : gmap string (list Artifact)) name :
  output_uri_getter d name =
  match d !! name with
  | None => Raise KeyError
  | Some [] => Raise IndexError
  | Some (artifact :: _) => Ok (VStr (uri artifact))
  end.
Proof.
  unfold output_uri_getter, dict_getitem, list_getitem.
  destruct (d !! name) as [[|a rest]|]; done.
Qed.

Lemma input_uri_getter_Ok (d : gmap string (list Artifact)) name v :
  input_uri_getter d name = Ok v ↔
  ∃ artifact rest, d !! name = Some (artifact :: rest) ∧ v = VStr (uri artifact).
Proof.
  rewrite input_uri_getter_unfold.
  destruct (d !! name) as [[|a rest]|]; split;
    try done; try (intros (? & ? & ? & ?); done).
  - intros [= <-]. eauto.
  - intros (? & ? & [= <- <-] & ->). done.
Qed.

Lemma output_uri_getter_Ok (d : gmap string (list Artifact)) name v :
  output_uri_getter d name = Ok v ↔
  ∃ artifact rest, d !! name = Some (artifact :: rest) ∧ v = VStr (uri artifact).
Proof.
  rewrite output_uri_getter_unfold.
  destruct (d !! name) as [[|a rest]|]; split;
    try done; try (intros (? & ? & ? & ?); done).
  - intros [= <-]. eauto.
  - intros (? & ? & [= <- <-] & ->). done.
Qed.

(** ** Claims on [resolve_command_line] *)

(** C1. In typed-placeholder mode the call returns a list exactly when every
    token resolves to text, and the list then has one element for each token,
    in the order of the tokens: a string is passed through unchanged, an
    [InputValuePlaceholder name] gives [input_value_getter name], an
    [InputUriPlaceholder name] gives [input_uri_getter name], an
    [OutputUriPlaceholder name] gives [output_uri_getter name].  With getters
    that return text for every name the call returns the list of these texts.
    An absent or empty [command] gives the empty list. *)
Theorem resolve_command_line_typed_placeholders
    (gv gi go : string → result value) (spec : structures.ContainerSpec) :
  let tokens := or_empty (structures.command spec) in
  Forall (λ tok, is_command_token tok = true) tokens →
  (∀ l, resolve_command_line gv gi go spec = Ok l ↔
        Forall2 (resolves_to gv gi go) tokens l)
  ∧ (∀ l, resolve_command_line gv gi go spec = Ok l →
          length l = length tokens
          ∧ ∀ i tok, tokens !! i = Some tok →
              ∃ v, l !! i = Some v ∧ resolves_to gv gi go tok v)
  ∧ (∀ tv ti to : string → string,
       resolve_command_line (text_getter tv) (text_getter ti) (text_getter to)
                            spec
       = Ok (map (token_text tv ti to) tokens))
  ∧ (is_empty (structures.command spec) = true →
     resolve_command_line gv gi go spec = Ok []).
Proof.
  intros tokens Htyped. repeat split.
  - apply resolve_command_line_Ok.
  - apply resolve_command_line_Ok.
  - apply resolve_command_line_Ok in H. symmetry. by eapply Forall2_length.
  - intros i tok Hi. apply resolve_command_line_Ok in H.
    destruct (Forall2_lookup_l _ _ _ _ _ H Hi) as (v & Hv & Hr). eauto.
  - intros tv ti to. apply resolve_command_line_Ok. fold tokens.
    induction Htyped as [|tok toks Htok _ IH]; simpl; constructor; [|done].
    destruct tok; try done; simpl; by constructor.
  - intros Hempty. unfold resolve_command_line.
    by destruct (structures.command spec) as [[|]|].
Qed.

Lemma resolve_command_line_typed_placeholders_witness :
  resolve_command_line
    (text_getter (λ _, "10")) (text_getter (λ _, "gs://in"))
    (text_getter (λ _, "gs://out"))
    {| structures.image := VStr "img";
       structures.command :=
         Some [VStr "run"; InputValuePlaceholder "epochs";
               InputUriPlaceholder "a"; OutputUriPlaceholder "b"] |}
  = Ok [VStr "run"; VStr "10"; VStr "gs://in"; VStr "gs://out"].
Proof.
  refine (proj1 (proj2 (proj2
    (resolve_command_line_typed_placeholders
       (text_getter (λ _, "10")) (text_getter (λ _, "gs://in"))
       (text_getter (λ _, "gs://out"))
       {| structures.image := VStr "img";
          structures.command :=
            Some [VStr "run"; InputValuePlaceholder "epochs";
                  InputUriPlaceholder "a"; OutputUriPlaceholder "b"] |}
       _))) (λ _, "10") (λ _, "gs://in") (λ _, "gs://out")).
  simpl. repeat constructor.
Defined.

(** C4. A command made of strings only is returned as it is, whatever the
    getters. *)
Theorem resolve_command_line_literals_identity
    (gv gi go : string → result value) (spec : structures.ContainerSpec) :
  Forall (λ tok, isinstance_str tok = true)
         (or_empty (structures.command spec)) →
  resolve_command_line gv gi go spec
  = Ok (or_empty (structures.command spec)).
Proof.
  intros Hlit. apply resolve_command_line_Ok.
  induction Hlit as [|tok toks Htok _ IH]; constructor; [|done].
  destruct tok; try done. constructor.
Qed.

Lemma resolve_command_line_literals_identity_witness :
  resolve_command_line
    (λ _, Raise KeyError) (λ _, Raise KeyError) (λ _, Raise KeyError)
    {| structures.image := VStr "img";
       structures.command := Some [VStr "python"; VStr "-m"; VStr "train"] |}
  = Ok [VStr "python"; VStr "-m"; VStr "train"].
Proof.
  apply (resolve_command_line_literals_identity
           (λ _, Raise KeyError) (λ _, Raise KeyError) (λ _, Raise KeyError)
           {| structures.image := VStr "img";
              structures.command :=
                Some [VStr "python"; VStr "-m"; VStr "train"] |}).
  simpl. repeat constructor.
Defined.

(** C5, as stated, fails: a command that holds a token of another type need
    not end in [TypeError], because a token before it may fail first.  Here
    the first token names a property that is absent, and the call ends in
    [KeyError]. *)
Lemma unknown_token_after_failing_getter :
  let spec := {| structures.image := VStr "img";
                 structures.command :=
                   Some [InputValuePlaceholder "x"; VInt 5] |} in
  (∃ tok, tok ∈ or_empty (structures.command spec)
          ∧ is_command_token tok = false)
  ∧ resolve_command_line (input_value_getter ∅) (input_uri_getter ∅)
                         (output_uri_getter ∅) spec = Raise KeyError
  ∧ resolve_command_line (input_value_getter ∅) (input_uri_getter ∅)
                         (output_uri_getter ∅) spec ≠ Raise TypeError.
Proof.
  simpl. split; [|split].
  - exists (VInt 5). split; [|done]. apply list_elem_of_In. simpl. auto.
  - reflexivity.
  - discriminate.
Qed.

(** C5, amended.  A command that holds a token which is neither a string nor
    one of the three placeholders never returns a list; the call ends in
    [TypeError] when every token before the first such token resolves to
    text, and otherwise in the error of the earlier token that fails. *)
Theorem resolve_command_line_unknown_token
    (gv gi go : string → result value) (spec : structures.ContainerSpec)
    (pre post : list value) (tok : value) :
  or_empty (structures.command spec) = pre ++ tok :: post →
  is_command_token tok = false →
  (∃ e, resolve_command_line gv gi go spec = Raise e)
  ∧ (Forall (λ t, ∃ v, resolves_to gv gi go t v) pre →
     resolve_command_line gv gi go spec = Raise TypeError)
  ∧ (∀ e, resolve_command_line gv gi go
            {| structures.image := structures.image spec;
               structures.command := Some pre |} = Raise e →
          resolve_command_line gv gi go spec = Raise e).
Proof.
  intros Hcmd Hunknown.
  pose proof (resolve_token_unknown gv gi go tok Hunknown) as Htok.
  split; [|split].
  - by eapply resolve_command_line_fails.
  - intros Hpre. by eapply resolve_command_line_first_error.
  - intros e. rewrite !resolve_command_line_mapM, Hcmd.
    cbn [structures.command]. rewrite or_empty_Some.
    apply mapM_result_prefix_error.
Qed.

Lemma resolve_command_line_unknown_token_witness :
  resolve_command_line (λ _, Ok (VStr "v")) (λ _, Ok (VStr "in"))
                       (λ _, Ok (VStr "out"))
    {| structures.image := VStr "img";
       structures.command :=
         Some [VStr "run"; InputValuePlaceholder "x"; VNone; VStr "end"] |}
  = Raise TypeError.
Proof.
  refine (proj1 (proj2
    (resolve_command_line_unknown_token
       (λ _, Ok (VStr "v")) (λ _, Ok (VStr "in")) (λ _, Ok (VStr "out"))
       {| structures.image := VStr "img";
          structures.command :=
            Some [VStr "run"; InputValuePlaceholder "x"; VNone;
                  VStr "end"] |}
       [VStr "run"; InputValuePlaceholder "x"] [VStr "end"] VNone
       eq_refl eq_refl)) _).
  repeat constructor.
  - exists (VStr "run"). constructor.
  - exists (VStr "v"). by constructor.
Defined.

(** C9, as stated, fails: a getter that returns something else than text for
    one placeholder does not make the call end in [AssertionError] when a
    token before it fails first.  Here the property ["b"] is the number 10,
    but the property ["a"] is absent, and the call ends in [KeyError]. *)
Lemma non_text_after_failing_getter :
  let ep : gmap string value := {[ "b" := VInt 10 ]} in
  let spec := {| structures.image := VStr "img";
                 structures.command :=
                   Some [InputValuePlaceholder "a";
                         InputValuePlaceholder "b"] |} in
  (∃ tok v, tok ∈ or_empty (structures.command spec)
            ∧ is_placeholder tok = true
            ∧ expand_command_line_arg (input_value_getter ep)
                (input_uri_getter ∅) (output_uri_getter ∅) tok = Ok v
            ∧ isinstance_str v = false)
  ∧ resolve_command_line (input_value_getter ep) (input_uri_getter ∅)
                         (output_uri_getter ∅) spec = Raise KeyError
  ∧ resolve_command_line (input_value_getter ep) (input_uri_getter ∅)
                         (output_uri_getter ∅) spec ≠ Raise AssertionError.
Proof.
  simpl. split; [|split].
  - exists (InputValuePlaceholder "b"), (VInt 10).
    split; [|done]. apply list_elem_of_In. simpl. auto.
  - reflexivity.
  - discriminate.
Qed.

(** C9, amended.  Every element of a list the call returns is a string.  A
    command with a placeholder for which the getter returns something else
    than a string never returns a list: the call ends in [AssertionError],
    which is neither a [LookupError] nor a [TypeError], when every token
    before that placeholder resolves to text, and otherwise in the error of
    the earlier token that fails. *)
Theorem resolve_command_line_text_only
    (gv gi go : string → result value) (spec : structures.ContainerSpec)
    (pre post : list value) (tok v : value) :
  or_empty (structures.command spec) = pre ++ tok :: post →
  expand_command_line_arg gv gi go tok = Ok v →
  isinstance_str v = false →
  is_placeholder tok = true
  ∧ (∃ e, resolve_command_line gv gi go spec = Raise e)
  ∧ (Forall (λ t, ∃ w, resolves_to gv gi go t w) pre →
     resolve_command_line gv gi go spec = Raise AssertionError)
  ∧ (∀ e, resolve_command_line gv gi go
            {| structures.image := structures.image spec;
               structures.command := Some pre |} = Raise e →
          resolve_command_line gv gi go spec = Raise e)
  ∧ (∀ spec' l, resolve_command_line gv gi go spec' = Ok l →
                Forall (λ w, isinstance_str w = true) l)
  ∧ (is_LookupError AssertionError = false ∧ AssertionError ≠ TypeError).
Proof.
  intros Hcmd Hexp Hv.
  pose proof (resolve_token_not_text gv gi go tok v Hexp Hv) as Htok.
  split; [|split; [|split; [|split; [|split; [|done]]]]].
  - by destruct tok.
  - by eapply resolve_command_line_fails.
  - intros Hpre. by eapply resolve_command_line_first_error.
  - intros e. rewrite !resolve_command_line_mapM, Hcmd.
    cbn [structures.command]. rewrite or_empty_Some.
    apply mapM_result_prefix_error.
  - intros spec' l Hl. apply resolve_command_line_Ok in Hl.
    induction Hl as [|t w ts ws Hr _ IH]; constructor; [|done].
    by destruct Hr.
Qed.

Lemma resolve_command_line_text_only_witness :
  resolve_command_line
    (input_value_getter {[ "epochs" := VInt 10 ]})
    (input_uri_getter ∅) (output_uri_getter ∅)
    {| structures.image := VStr "img";
       structures.command :=
         Some [VStr "run"; InputValuePlaceholder "epochs"] |}
  = Raise AssertionError.
Proof.
  refine (proj1 (proj2 (proj2
    (resolve_command_line_text_only
       (input_value_getter {[ "epochs" := VInt 10 ]})
       (input_uri_getter ∅) (output_uri_getter ∅)
       {| structures.image := VStr "img";
          structures.command :=
            Some [VStr "run"; InputValuePlaceholder "epochs"] |}
       [VStr "run"] [] (InputValuePlaceholder "epochs") (VInt 10)
       eq_refl eq_refl eq_refl))) _).
  repeat constructor. exists (VStr "run"). constructor.
Defined.

(** ** Claims on [resolve_command_line_for_non_managed] *)

(** C2. The getters are wired to the three dictionaries: an
    [InputValuePlaceholder name] expands to [exec_properties[name]], an
    [InputUriPlaceholder name] to the [uri] of [input_dict[name][0]], an
    [OutputUriPlaceholder name] to the [uri] of [output_dict[name][0]], with
    [KeyError] for an absent name and [IndexError] for an empty list of
    artifacts.  In a list the call
    returns, the place of an [InputValuePlaceholder name] holds
    [exec_properties[name]], the place of an [InputUriPlaceholder name] holds
    the [uri] of [input_dict[name][0]], the place of an
    [OutputUriPlaceholder name] holds the [uri] of [output_dict[name][0]].
    When the tokens before it resolve, a placeholder whose name is absent
    from its dictionary ends the call in [KeyError], and one whose list of
    artifacts is empty ends it in [IndexError]; both are [LookupError]s.  The
    last three parts give the result for a command of one placeholder. *)
Theorem resolve_command_line_for_non_managed_getters
    (input_dict output_dict : gmap string (list Artifact))
    (exec_properties : gmap string value)
    (spec : structures.ContainerSpec) :
  let tokens := or_empty (structures.command spec) in
  let run := resolve_command_line_for_non_managed
               spec input_dict output_dict exec_properties in
  let resolves := resolves_to (input_value_getter exec_properties)
                              (input_uri_getter input_dict)
                              (output_uri_getter output_dict) in
  let expand := expand_command_line_arg
                  (input_value_getter exec_properties)
                  (input_uri_getter input_dict)
                  (output_uri_getter output_dict) in
  (∀ name,
     expand (InputValuePlaceholder name)
     = match exec_properties !! name with
       | None => Raise KeyError
       | Some v => Ok v
       end)
  ∧ (∀ name,
       expand (InputUriPlaceholder name)
       = match input_dict !! name with
         | None => Raise KeyError
         | Some [] => Raise IndexError
         | Some (artifact :: _) => Ok (VStr (uri artifact))
         end)
  ∧ (∀ name,
       expand (OutputUriPlaceholder name)
       = match output_dict !! name with
         | None => Raise KeyError
         | Some [] => Raise IndexError
         | Some (artifact :: _) => Ok (VStr (uri artifact))
         end)
  ∧ (∀ l, run = Ok l →
     ∀ i tok, tokens !! i = Some tok →
       match tok with
       | InputValuePlaceholder name =>
           ∃ v, exec_properties !! name = Some v ∧ l !! i = Some v
       | InputUriPlaceholder name =>
           ∃ artifact rest, input_dict !! name = Some (artifact :: rest)
                            ∧ l !! i = Some (VStr (uri artifact))
       | OutputUriPlaceholder name =>
           ∃ artifact rest, output_dict !! name = Some (artifact :: rest)
                            ∧ l !! i = Some (VStr (uri artifact))
       | _ => l !! i = Some tok
       end)
  ∧ (∀ pre tok post,
       tokens = pre ++ tok :: post →
       Forall (λ t, ∃ v, resolves t v) pre →
       match tok with
       | InputValuePlaceholder name =>
           exec_properties !! name = None → run = Raise KeyError
       | InputUriPlaceholder name =>
           (input_dict !! name = None → run = Raise KeyError)
           ∧ (input_dict !! name = Some [] → run = Raise IndexError)
       | OutputUriPlaceholder name =>
           (output_dict !! name = None → run = Raise KeyError)
           ∧ (output_dict !! name = Some [] → run = Raise IndexError)
       | _ => True
       end)
  ∧ (is_LookupError KeyError = true ∧ is_LookupError IndexError = true)
  ∧ (∀ image name,
       resolve_command_line_for_non_managed
         (single image (InputValuePlaceholder name))
         input_dict output_dict exec_properties
       = match exec_properties !! name with
         | None => Raise KeyError
         | Some (VStr s) => Ok [VStr s]
         | Some _ => Raise AssertionError
         end)
  ∧ (∀ image name,
       resolve_command_line_for_non_managed
         (single image (InputUriPlaceholder name))
         input_dict output_dict exec_properties
       = match input_dict !! name with
         | None => Raise KeyError
         | Some [] => Raise IndexError
         | Some (artifact :: _) => Ok [VStr (uri artifact)]
         end)
  ∧ (∀ image name,
       resolve_command_line_for_non_managed
         (single image (OutputUriPlaceholder name))
         input_dict output_dict exec_properties
       = match output_dict !! name with
         | None => Raise KeyError
         | Some [] => Raise IndexError
         | Some (artifact :: _) => Ok [VStr (uri artifact)]
         end).
Proof.
  intros tokens run resolves expand.
  split; [|split; [|split]].
  { intros name. unfold expand. simpl.
    unfold input_value_getter, dict_getitem.
    by destruct (exec_properties !! name). }
  { intros name. apply input_uri_getter_unfold. }
  { intros name. apply output_uri_getter_unfold. }
  split; [|split; [|split; [|split; [|split]]]].
  - intros l Hl i tok Hi. apply resolve_command_line_Ok in Hl.
    destruct (Forall2_lookup_l _ _ _ _ _ Hl Hi) as (v & Hv & Hr).
    destruct Hr as [s|name s H|name s H|name s H].
    + done.
    + apply input_value_getter_Ok in H. eauto.
    + apply input_uri_getter_Ok in H as (a & rest & H & [= ->]). eauto.
    + apply output_uri_getter_Ok in H as (a & rest & H & [= ->]). eauto.
  - intros pre tok post Hcmd Hpre.
    assert (∀ e, resolve_token (input_value_getter exec_properties)
                   (input_uri_getter input_dict)
                   (output_uri_getter output_dict) tok = Raise e →
                 run = Raise e) as Hfirst.
    { intros e He. by eapply resolve_command_line_first_error. }
    destruct tok; try done.
    + intros Habs. apply Hfirst. unfold resolve_token. simpl.
      by rewrite input_value_getter_absent.
    + split; intros Habs; apply Hfirst; unfold resolve_token; simpl;
        by rewrite input_uri_getter_unfold, Habs.
    + split; intros Habs; apply Hfirst; unfold resolve_token; simpl;
        by rewrite output_uri_getter_unfold, Habs.
  - done.
  - intros image name. unfold resolve_command_line_for_non_managed,
      resolve_command_line, input_value_getter, dict_getitem. simpl.
    destruct (exec_properties !! name) as [[]|]; done.
  - intros image name. unfold resolve_command_line_for_non_managed,
      resolve_command_line. simpl. rewrite input_uri_getter_unfold.
    destruct (input_dict !! name) as [[|a rest]|]; done.
  - intros image name. unfold resolve_command_line_for_non_managed,
      resolve_command_line. simpl. rewrite output_uri_getter_unfold.
    destruct (output_dict !! name) as [[|a rest]|]; done.
Qed.

Lemma resolve_command_line_for_non_managed_getters_witness :
  resolve_command_line_for_non_managed
    {| structures.image := VStr "img";
       structures.command := Some [VStr "run"; InputUriPlaceholder "a"] |}
    {[ "a" := [] ]} ∅ ∅
  = Raise IndexError.
Proof.
  refine (proj2 (proj1 (proj2 (proj2 (proj2 (proj2
    (resolve_command_line_for_non_managed_getters
       {[ "a" := [] ]} ∅ ∅
       {| structures.image := VStr "img";
          structures.command :=
            Some [VStr "run"; InputUriPlaceholder "a"] |})))))
    [VStr "run"] (InputUriPlaceholder "a") [] eq_refl _) eq_refl).
  repeat constructor. exists (VStr "run"). constructor.
Defined.

(** The two examples the specification gives. *)
Example input_value_resolves_to_property :
  resolve_command_line_for_non_managed
    (single (VStr "img") (InputValuePlaceholder "x"))
    ∅ ∅ {[ "x" := VStr "v" ]} = Ok [VStr "v"]
  ∧ resolve_command_line_for_non_managed
      (single (VStr "img") (InputValuePlaceholder "x")) ∅ ∅ ∅
    = Raise KeyError.
Proof. split; reflexivity. Qed.

Example input_uri_resolves_to_first_artifact :
  resolve_command_line_for_non_managed
    (single (VStr "img") (InputUriPlaceholder "a"))
    {[ "a" := [ {| uri := "gs://b" |} ] ]} ∅ ∅ = Ok [VStr "gs://b"]
  ∧ resolve_command_line_for_non_managed
      (single (VStr "img") (InputUriPlaceholder "a"))
      {[ "a" := [] ]} ∅ ∅
    = Raise IndexError.
Proof. split; reflexivity. Qed.

(** ** Claims on [resolve_container_template] *)

Section RendererFacts.
Variable jinja2_render : value → context → result value.

Lemma render_each_cons item items ctx calls :
  render_each jinja2_render (item :: items) ctx calls =
  match jinja2_render item ctx with
  | Ok rendered =>
      match render_each jinja2_render items ctx (calls ++ [item]) with
      | (Ok rest, calls') => (Ok (rendered :: rest), calls')
      | (Raise e, calls') => (Raise e, calls')
      end
  | Raise e => (Raise e, calls ++ [item])
  end.
Proof.
  cbn [render_each]. unfold mbind, M_bind, _render_text.
  destruct (jinja2_render item ctx); [|done].
  by destruct (render_each _ _ _ _) as [[|] ?].
Qed.

Lemma render_each_spec items ctx calls :
  ∃ handed,
    (render_each jinja2_render items ctx calls).2 = calls ++ handed
    ∧ handed `prefix_of` items
    ∧ match (render_each jinja2_render items ctx calls).1 with
      | Ok l =>
          handed = items
          ∧ Forall2 (λ text rendered, jinja2_render text ctx = Ok rendered)
                    items l
      | Raise e =>
          ∃ text, last handed = Some text
                  ∧ jinja2_render text ctx = Raise e
      end.
Proof.
  revert calls. induction items as [|item items IH]; intros calls.
  - exists []. simpl. rewrite app_nil_r.
    split; [done|]. split; [done|]. split; [done|constructor].
  - rewrite render_each_cons.
    destruct (jinja2_render item ctx) as [rendered|e] eqn:Hitem.
    + destruct (IH (calls ++ [item])) as (handed & Hcalls & Hpre & Hres).
      exists (item :: handed).
      destruct (render_each jinja2_render items ctx (calls ++ [item]))
        as [[l|e] calls'] eqn:Hrest; simpl in *; subst calls';
        rewrite <- app_assoc; (split; [done|]);
        (split; [by apply prefix_cons|]).
      * destruct Hres as [-> Hall]. split; [done|by constructor].
      * destruct Hres as (text & Hlast & Htext).
        exists text. split; [|done]. by destruct handed.
    + exists [item]. simpl. split; [done|].
      split; [apply prefix_cons, prefix_nil|]. eauto.
Qed.

Lemma _render_items_empty items ctx calls :
  is_empty items = true →
  _render_items jinja2_render items ctx calls = (Ok items, calls).
Proof. unfold _render_items. by intros ->. Qed.

Lemma _render_items_spec items ctx calls :
  ∃ handed,
    (_render_items jinja2_render items ctx calls).2 = calls ++ handed
    ∧ handed `prefix_of` or_empty items
    ∧ match (_render_items jinja2_render items ctx calls).1 with
      | Ok out =>
          handed = or_empty items
          ∧ field_rendered jinja2_render ctx items out
      | Raise e =>
          ∃ text, last handed = Some text
                  ∧ jinja2_render text ctx = Raise e
      end.
Proof.
  unfold _render_items, field_rendered.
  destruct (is_empty items) eqn:Hempty.
  - exists []. simpl. rewrite app_nil_r.
    repeat split; [apply prefix_nil|].
    by destruct items as [[|]|].
  - destruct (render_each_spec (or_empty items) ctx calls)
      as (handed & Hcalls & Hpre & Hres).
    exists handed. unfold mbind, M_bind.
    destruct (render_each jinja2_render (or_empty items) ctx calls)
      as [[l|e] calls'] eqn:Hrun; simpl in *.
    + destruct Hres as [-> Hall]. repeat split; eauto.
    + repeat split; eauto.
Qed.
End RendererFacts.

(** The typed-placeholder branch, step by step. *)
Lemma resolve_container_template_typed_unfold
    (jinja2_render : value → context → result value)
    (spec : structures.ContainerSpec)
    (input_dict output_dict : gmap string (list Artifact))
    (exec_properties : gmap string value) (calls : list value) :
  resolve_container_template jinja2_render (TypedPlaceholders spec)
    input_dict output_dict exec_properties calls
  = (command ← resolve_command_line
                 (input_value_getter exec_properties)
                 (input_uri_getter input_dict)
                 (output_uri_getter output_dict) spec;
     Ok {| executor_spec.image := structures.image spec;
           executor_spec.command := Some command;
           executor_spec.args := Some [] |},
     calls).
Proof.
  unfold resolve_container_template, resolve_command_line_for_non_managed.
  unfold mbind at 1, M_bind, lift.
  by destruct (resolve_command_line _ _ _ spec).
Qed.

(** C3. For a template in typed-placeholder mode the engine is not called.
    The call returns exactly when the placeholder resolver, over the getters
    wired to the three dictionaries, returns; the specification it returns
    has the image of the template unchanged, the list of the resolver as its
    command, which holds strings only, and empty [args].  The call ends in
    the error of the resolver when that one fails. *)
Theorem resolve_container_template_typed_placeholders
    (jinja2_render : value → context → result value)
    (spec : structures.ContainerSpec)
    (input_dict output_dict : gmap string (list Artifact))
    (exec_properties : gmap string value) (calls : list value) :
  let run := resolve_container_template jinja2_render
               (TypedPlaceholders spec)
               input_dict output_dict exec_properties calls in
  let resolved := resolve_command_line
                    (input_value_getter exec_properties)
                    (input_uri_getter input_dict)
                    (output_uri_getter output_dict) spec in
  run.2 = calls
  ∧ (∀ r, run.1 = Ok r ↔
          ∃ command,
            resolved = Ok command
            ∧ r = {| executor_spec.image := structures.image spec;
                     executor_spec.command := Some command;
                     executor_spec.args := Some [] |})
  ∧ (∀ r, run.1 = Ok r →
          executor_spec.image r = structures.image spec
          ∧ Ok (or_empty (executor_spec.command r)) = resolved
          ∧ Forall (λ v, isinstance_str v = true)
                   (or_empty (executor_spec.command r))
          ∧ executor_spec.args r = Some [])
  ∧ (∀ e, run.1 = Raise e ↔ resolved = Raise e).
Proof.
  intros run resolved. subst run.
  rewrite resolve_container_template_typed_unfold. fold resolved.
  cbn [fst snd]. split; [done|].
  destruct resolved as [command|e] eqn:Hresolved; cbn [mbind result_bind].
  - split; [|split]; [| |done].
    + intros r. split; [intros [= <-]; eauto|].
      by intros (command' & [= <-] & ->).
    + intros r [= <-].
      cbn [executor_spec.image executor_spec.command executor_spec.args].
      rewrite or_empty_Some. repeat split.
      apply resolve_command_line_Ok in Hresolved.
      induction Hresolved as [|t w ts ws Hr _ IH]; constructor; [|done].
      by destruct Hr.
  - split; [|split]; [|by intros r [=]|by intros e0; split; intros [= ->]].
    intros r. split; [done|]. by intros (? & ? & _).
Qed.

Lemma resolve_container_template_typed_placeholders_witness :
  let r := {| executor_spec.image := VStr "img";
              executor_spec.command := Some [VStr "run"; VStr "10"];
              executor_spec.args := Some [] |} in
  executor_spec.image r = VStr "img"
  ∧ Ok (or_empty (executor_spec.command r))
    = resolve_command_line
        (input_value_getter {[ "epochs" := VStr "10" ]})
        (input_uri_getter ∅) (output_uri_getter ∅)
        {| structures.image := VStr "img";
           structures.command :=
             Some [VStr "run"; InputValuePlaceholder "epochs"] |}
  ∧ Forall (λ v, isinstance_str v = true)
           (or_empty (executor_spec.command r))
  ∧ executor_spec.args r = Some [].
Proof.
  intros r.
  apply (proj1 (proj2 (proj2
    (resolve_container_template_typed_placeholders
       (λ _ _, Raise TemplateSyntaxError)
       {| structures.image := VStr "img";
          structures.command :=
            Some [VStr "run"; InputValuePlaceholder "epochs"] |}
       ∅ ∅ {[ "epochs" := VStr "10" ]} []))) r).
  reflexivity.
Defined.

(** The example the specification gives. *)
Example resolve_container_template_end_to_end :
  resolve_container_template (λ _ _, Raise TemplateSyntaxError)
    (TypedPlaceholders
       {| structures.image := VStr "img";
          structures.command :=
            Some [VStr "run"; InputValuePlaceholder "epochs"] |})
    ∅ ∅ {[ "epochs" := VStr "10" ]} []
  = (Ok {| executor_spec.image := VStr "img";
           executor_spec.command := Some [VStr "run"; VStr "10"];
           executor_spec.args := Some [] |}, []).
Proof. reflexivity. Qed.

(** The free-text branch, step by step. *)
Lemma resolve_container_template_free_text_unfold
    (jinja2_render : value → context → result value)
    (spec : executor_spec.ExecutorContainerSpec)
    (input_dict output_dict : gmap string (list Artifact))
    (exec_properties : gmap string value) (calls : list value) :
  let ctx := {| ctx_input_dict := input_dict;
                ctx_output_dict := output_dict;
                ctx_exec_properties := exec_properties |} in
  resolve_container_template jinja2_render (FreeText spec)
    input_dict output_dict exec_properties calls
  = match jinja2_render (executor_spec.image spec) ctx with
    | Raise e => (Raise e, calls ++ [executor_spec.image spec])
    | Ok image =>
        match _render_items jinja2_render (executor_spec.command spec) ctx
                (calls ++ [executor_spec.image spec]) with
        | (Raise e, calls1) => (Raise e, calls1)
        | (Ok command, calls1) =>
            match _render_items jinja2_render (executor_spec.args spec)
                    ctx calls1 with
            | (Raise e, calls2) => (Raise e, calls2)
            | (Ok args, calls2) =>
                (Ok {| executor_spec.image := image;
                       executor_spec.command := command;
                       executor_spec.args := args |}, calls2)
            end
        end
    end.
Proof.
  intros ctx. unfold resolve_container_template. fold ctx.
  unfold mbind, M_bind, _render_text.
  destruct (jinja2_render _ ctx); [|done].
  destruct (_render_items _ _ _ _) as [[|] ?]; [|done].
  by destruct (_render_items _ _ _ _) as [[|] ?].
Qed.

(** C6. In free-text mode a [command] (or [args]) that is empty or absent is
    handed back as it is and no text of it reaches the engine; the elements
    of a field that is not empty are rendered in their order against the
    context of the three dictionaries.  The texts handed to the engine by a
    call that returns are the image, then the elements of [command], then
    the elements of [args]; a call that fails has handed over a prefix of
    them. *)
Theorem resolve_container_template_free_text
    (jinja2_render : value → context → result value)
    (spec : executor_spec.ExecutorContainerSpec)
    (input_dict output_dict : gmap string (list Artifact))
    (exec_properties : gmap string value) (calls : list value) :
  let ctx := {| ctx_input_dict := input_dict;
                ctx_output_dict := output_dict;
                ctx_exec_properties := exec_properties |} in
  let run := resolve_container_template jinja2_render (FreeText spec)
               input_dict output_dict exec_properties calls in
  let texts := executor_spec.image spec
               :: or_empty (executor_spec.command spec)
               ++ or_empty (executor_spec.args spec) in
  (∀ items calls0,
     is_empty items = true →
     _render_items jinja2_render items ctx calls0 = (Ok items, calls0))
  ∧ (∃ handed, run.2 = calls ++ handed ∧ handed `prefix_of` texts)
  ∧ (∀ r, run.1 = Ok r →
       run.2 = calls ++ texts
       ∧ jinja2_render (executor_spec.image spec) ctx
         = Ok (executor_spec.image r)
       ∧ field_rendered jinja2_render ctx
           (executor_spec.command spec) (executor_spec.command r)
       ∧ field_rendered jinja2_render ctx
           (executor_spec.args spec) (executor_spec.args r)).
Proof.
  intros ctx run texts.
  split; [intros items calls0; apply _render_items_empty|].
  subst run. rewrite resolve_container_template_free_text_unfold. fold ctx.
  destruct (jinja2_render (executor_spec.image spec) ctx)
    as [image|e] eqn:Himage.
  2:{ split; [|done]. exists [executor_spec.image spec]. split; [done|].
      apply prefix_cons, prefix_nil. }
  destruct (_render_items_spec jinja2_render (executor_spec.command spec)
              ctx (calls ++ [executor_spec.image spec]))
    as (hc & Hcalls_c & Hpre_c & Hres_c).
  destruct (_render_items jinja2_render (executor_spec.command spec) ctx
              (calls ++ [executor_spec.image spec]))
    as [[command|e] calls_c] eqn:Hrun_c; simpl in *; subst calls_c.
  2:{ split; [|done]. exists (executor_spec.image spec :: hc).
      rewrite <- app_assoc. split; [done|].
      apply prefix_cons. by apply prefix_app_r. }
  destruct Hres_c as [-> Hfield_c].
  destruct (_render_items_spec jinja2_render (executor_spec.args spec)
              ctx ((calls ++ [executor_spec.image spec])
                   ++ or_empty (executor_spec.command spec)))
    as (ha & Hcalls_a & Hpre_a & Hres_a).
  destruct (_render_items jinja2_render (executor_spec.args spec) ctx
              ((calls ++ [executor_spec.image spec])
               ++ or_empty (executor_spec.command spec)))
    as [[args|e] calls_a] eqn:Hrun_a; simpl in *; subst calls_a.
  - destruct Hres_a as [-> Hfield_a]. split.
    + exists texts. by rewrite <- !app_assoc.
    + intros r [= <-]. simpl. by rewrite <- !app_assoc.
  - split; [|done].
    exists (executor_spec.image spec
            :: or_empty (executor_spec.command spec) ++ ha).
    rewrite <- !app_assoc. split; [done|].
    apply prefix_cons. by apply prefix_app.
Qed.

Lemma resolve_container_template_free_text_witness :
  _render_items (λ text _, Ok text) None
    {| ctx_input_dict := ∅; ctx_output_dict := ∅;
       ctx_exec_properties := ∅ |} [VStr "img"]
  = (Ok None, [VStr "img"])
  ∧ _render_items (λ text _, Ok text) (Some [])
      {| ctx_input_dict := ∅; ctx_output_dict := ∅;
         ctx_exec_properties := ∅ |} [VStr "img"]
    = (Ok (Some []), [VStr "img"]).
Proof.
  pose proof (proj1 (resolve_container_template_free_text
    (λ text _, Ok text)
    {| executor_spec.image := VStr "img";
       executor_spec.command := None;
       executor_spec.args := Some [] |} ∅ ∅ ∅ [])) as H.
  simpl in H. split; apply H; reflexivity.
Defined.

(** A template with an absent [command] and two [args]: the engine sees the
    image and the two arguments, in this order. *)
Example resolve_container_template_free_text_example :
  resolve_container_template (λ text _, Ok text)
    (FreeText {| executor_spec.image := VStr "img";
                 executor_spec.command := None;
                 executor_spec.args := Some [VStr "a"; VStr "b"] |})
    ∅ ∅ ∅ []
  = (Ok {| executor_spec.image := VStr "img";
           executor_spec.command := None;
           executor_spec.args := Some [VStr "a"; VStr "b"] |},
     [VStr "img"; VStr "a"; VStr "b"]).
Proof. reflexivity. Qed.

(** ** Dictionaries in insertion order *)

Lemma dict_get_set {V} (d : list (string * V)) k v k' :
  dict_get (dict_set d k v) k' =
  if String.eqb k k' then Some v else dict_get d k'.
Proof.
  induction d as [|[k0 v0] d IH]; simpl.
  - done.
  - destruct (String.eqb_spec k0 k) as [->|Hne]; simpl.
    + by destruct (String.eqb_spec k k').
    + rewrite IH. destruct (String.eqb_spec k0 k') as [->|Hne'];
        [|done]. by destruct (String.eqb_spec k k') as [->|].
Qed.

Lemma dict_get_is_Some {V} (d : list (string * V)) k :
  is_Some (dict_get d k) ↔ k ∈ dict_keys d.
Proof.
  induction d as [|[k0 v0] d IH]; simpl.
  - split; [by intros [? ?] | by intros ?%elem_of_nil].
  - destruct (String.eqb_spec k0 k) as [->|Hne].
    + split; [intros _; left | eauto].
    + rewrite IH. split; [by right|].
      intros [?|?]%elem_of_cons; [by subst|done].
Qed.

Lemma dict_get_elem_of {V} (d : list (string * V)) k v :
  dict_get d k = Some v → (k, v) ∈ d.
Proof.
  induction d as [|[k0 v0] d IH]; simpl; [done|].
  destruct (String.eqb_spec k0 k) as [->|Hne].
  - intros [= ->]. left.
  - intros H. right. by apply IH.
Qed.

Lemma dict_set_keys {V} (d : list (string * V)) k v k' :
  k' ∈ dict_keys (dict_set d k v) ↔ k' = k ∨ k' ∈ dict_keys d.
Proof.
  rewrite <- !dict_get_is_Some, dict_get_set.
  destruct (String.eqb_spec k k') as [->|Hne].
  - split; eauto.
  - split; [by right | by intros [->|?]].
Qed.

Lemma dict_set_fresh {V} (d : list (string * V)) k v :
  k ∉ dict_keys d → dict_set d k v = d ++ [(k, v)].
Proof.
  induction d as [|[k0 v0] d IH]; simpl; [done|].
  intros Hk. apply not_elem_of_cons in Hk as [Hne Hk].
  destruct (String.eqb_spec k0 k) as [->|_]; [done|]. by rewrite IH.
Qed.

(** ** The equations of [to_swagger_dict] *)

Lemma to_swagger_dict_list items :
  to_swagger_dict (VList items) = VList <$> mapM to_swagger_dict items.
Proof.
  reflexivity.
Qed.

Lemma to_swagger_dict_dict items :
  to_swagger_dict (VDict items) = VDict <$> dict_comprehension items [].
Proof.
  reflexivity.
Qed.

(** A dictionary of strings is rebuilt with the same entries. *)
Lemma dict_comprehension_strings (am : list (string * string)) acc :
  dict_comprehension (map (λ entry, (entry.1, VStr entry.2)) am) acc =
  Ok (fold_left (λ acc entry, dict_set acc entry.1 (VStr entry.2)) am acc).
Proof.
  revert acc. induction am as [|[k n] am IH]; intros acc; simpl; [done|].
  apply IH.
Qed.

Lemma to_swagger_dict_attribute_map am :
  to_swagger_dict (attribute_map_value am) = Ok (converted_attribute_map am).
Proof.
  unfold attribute_map_value, converted_attribute_map.
  by rewrite to_swagger_dict_dict, dict_comprehension_strings.
Qed.

Lemma model_fields_comprehension am attrs d stored :
  (∀ name, stored name =
           v ← attr_lookup attrs name; Ok (v, to_swagger_dict v)) →
  ∀ table acc,
    model_fields (model_attr am stored) table acc =
    model_comprehension (VModel am attrs d) table acc.
Proof.
  intros Hstored table.
  induction table as [|[key swagger_name] table IH]; intros acc;
    cbn [model_fields model_comprehension]; [done|].
  unfold model_attr. cbn [getattr].
  destruct (String.eqb key "attribute_map") eqn:Hkey.
  - cbn [mbind result_bind fst snd].
    rewrite to_swagger_dict_attribute_map.
    destruct (truthy (attribute_map_value am)); cbn; apply IH.
  - rewrite Hstored. destruct (attr_lookup attrs key) as [v|e]; [|done].
    cbn [mbind result_bind fst snd].
    destruct (truthy v); [|apply IH].
    destruct (to_swagger_dict v); cbn; [apply IH|done].
Qed.

Lemma to_swagger_dict_model am attrs d :
  to_swagger_dict (VModel am attrs d) =
  VDict <$> model_comprehension (VModel am attrs d) am [].
Proof.
  cbn [to_swagger_dict]. f_equal. apply model_fields_comprehension.
  intros name. unfold attr_lookup.
  induction attrs as [|[k v] attrs IH]; simpl; [done|].
  destruct (String.eqb k name); [done|]. apply IH.
Qed.

Lemma hasattr_attribute_map config :
  hasattr config "attribute_map" =
  match config with VModel _ _ _ => true | _ => false end.
Proof. by destruct config. Qed.

(** The function as the source writes it: the three tests in their order. *)
Lemma to_swagger_dict_unfold config :
  to_swagger_dict config =
  if isinstance_list config then
    VList <$> mapM to_swagger_dict (list_items config)
  else if hasattr config "attribute_map" then
    VDict <$> model_comprehension config (attribute_map_items config) []
  else if isinstance_dict config then
    VDict <$> dict_comprehension (dict_items config) []
  else Ok config.
Proof.
  rewrite hasattr_attribute_map. destruct config; try done.
  apply to_swagger_dict_model.
Qed.

(** ** The comprehension over a dictionary *)

Lemma dict_comprehension_keys items acc out :
  dict_comprehension items acc = Ok out →
  ∀ k, k ∈ dict_keys out ↔ k ∈ dict_keys acc ∨ k ∈ dict_keys items.
Proof.
  revert acc. induction items as [|[k0 v0] items IH]; intros acc; simpl.
  - intros [= <-] k. rewrite elem_of_nil. tauto.
  - intros H k. apply result_bind_Ok in H as (w & Hw & H).
    rewrite (IH _ H k), dict_set_keys, elem_of_cons. tauto.
Qed.

(** With keys that differ, as the keys of a dictionary do, the entries come
    out in their order, each with its converted value. *)
Lemma dict_comprehension_NoDup items acc out :
  NoDup (dict_keys acc ++ dict_keys items) →
  dict_comprehension items acc = Ok out →
  ∃ items', out = acc ++ items'
            ∧ Forall2 (λ kv kw : string * value,
                         kw.1 = kv.1 ∧ to_swagger_dict kv.2 = Ok kw.2)
                      items items'.
Proof.
  revert acc. induction items as [|[k0 v0] items IH]; intros acc; simpl.
  - intros _ [= <-]. exists []. by rewrite app_nil_r.
  - intros Hnd H. apply result_bind_Ok in H as (w & Hw & H).
    assert (k0 ∉ dict_keys acc) as Hfresh.
    { apply NoDup_app in Hnd as (_ & Hdisj & _). intros Hin.
      apply (Hdisj _ Hin). left. }
    rewrite dict_set_fresh in H by done.
    destruct (IH (acc ++ [(k0, w)])) as (items' & -> & Hall); [|done|].
    { unfold dict_keys in *. rewrite map_app, <- app_assoc. done. }
    exists ((k0, w) :: items'). rewrite <- app_assoc. split; [done|].
    by constructor.
Qed.

Lemma converted_items_keys (items items' : list (string * value)) :
  Forall2 (λ kv kw : string * value,
             kw.1 = kv.1 ∧ to_swagger_dict kv.2 = Ok kw.2) items items' →
  dict_keys items' = dict_keys items.
Proof.
  unfold dict_keys. induction 1 as [|kv kw ? ? [Hk _] _ IH]; simpl; [done|].
  by rewrite Hk, IH.
Qed.

Lemma dict_comprehension_total items acc :
  Forall (λ kv : string * value, ∃ w, to_swagger_dict kv.2 = Ok w) items →
  ∃ out, dict_comprehension items acc = Ok out.
Proof.
  intros H. revert acc.
  induction H as [|[k v] items [w Hw] _ IH]; intros acc; simpl;
    [by eexists|].
  simpl in Hw. rewrite Hw. simpl. apply IH.
Qed.

(** ** The comprehension over the table of a model *)

Lemma model_comprehension_cons config key swagger_name table acc out :
  model_comprehension config ((key, swagger_name) :: table) acc = Ok out →
  ∃ v, getattr config key = Ok v
       ∧ if truthy v
         then ∃ w, to_swagger_dict v = Ok w
                   ∧ model_comprehension config table
                       (dict_set acc swagger_name w) = Ok out
         else model_comprehension config table acc = Ok out.
Proof.
  cbn [model_comprehension]. intros H.
  apply result_bind_Ok in H as (v & Hv & H). exists v. split; [done|].
  destruct (truthy v); [|done].
  apply result_bind_Ok in H as (w & Hw & H). rewrite Hv in Hw. eauto.
Qed.

(** The wire names of the result are the ones of the attributes that are
    true. *)
Lemma model_comprehension_keys config table acc out :
  model_comprehension config table acc = Ok out →
  ∀ name, name ∈ dict_keys out ↔
          name ∈ dict_keys acc
          ∨ ∃ key v, (key, name) ∈ table ∧ getattr config key = Ok v
                     ∧ truthy v = true.
Proof.
  revert acc. induction table as [|[key swagger_name] table IH]; intros acc.
  - intros [= <-] name. split; [by left|].
    intros [?|(? & ? & ?%elem_of_nil & _)]; done.
  - intros H name.
    apply model_comprehension_cons in H as (v & Hv & H).
    destruct (truthy v) eqn:Htrue.
    + destruct H as (w & Hw & H). rewrite (IH _ H name), dict_set_keys.
      split.
      * intros [[->|?]|(key' & v' & Hin & ?)]; [right|by left|right].
        -- exists key, v. split; [left|done].
        -- exists key', v'. split; [by right|done].
      * intros [?|(key' & v' & Hin & Hv' & Ht)]; [by left; right|].
        apply elem_of_cons in Hin as [[= -> ->]|Hin]; [by left; left|].
        right. eauto.
    + rewrite (IH _ H name). split.
      * intros [?|(key' & v' & Hin & ?)]; [by left|right].
        exists key', v'. split; [by right|done].
      * intros [?|(key' & v' & Hin & Hv' & Ht)]; [by left|].
        apply elem_of_cons in Hin as [[= -> ->]|Hin]; [congruence|].
        right. eauto.
Qed.

(** Each entry of the result is the conversion of an attribute that is
    true, under its wire name. *)
Lemma model_comprehension_values config table acc out name w :
  model_comprehension config table acc = Ok out →
  dict_get out name = Some w →
  dict_get acc name = Some w
  ∨ ∃ key v, (key, name) ∈ table ∧ getattr config key = Ok v
             ∧ truthy v = true ∧ to_swagger_dict v = Ok w.
Proof.
  revert acc. induction table as [|[key swagger_name] table IH]; intros acc.
  - intros [= <-] ?. by left.
  - intros H Hget.
    apply model_comprehension_cons in H as (v & Hv & H).
    destruct (truthy v) eqn:Htrue.
    + destruct H as (w' & Hw' & H).
      destruct (IH _ H Hget) as [Hacc|(key' & v' & Hin & ?)].
      * rewrite dict_get_set in Hacc.
        destruct (String.eqb_spec swagger_name name) as [->|_];
          [|by left].
        injection Hacc as ->. right. exists key, v. split; [left|done].
      * right. exists key', v'. split; [by right|done].
    + destruct (IH _ H Hget) as [Hacc|(key' & v' & Hin & ?)]; [by left|].
      right. exists key', v'. split; [by right|done].
Qed.

Lemma model_comprehension_other config table acc out name :
  name ∉ table.*2 →
  model_comprehension config table acc = Ok out →
  dict_get out name = dict_get acc name.
Proof.
  revert acc. induction table as [|[key swagger_name] table IH]; intros acc.
  - by intros _ [= <-].
  - intros Hname H. apply not_elem_of_cons in Hname as [Hne Hname].
    apply model_comprehension_cons in H as (v & Hv & H).
    destruct (truthy v).
    + destruct H as (w & Hw & H). rewrite (IH _ Hname H), dict_get_set.
      simpl in Hne. by destruct (String.eqb_spec swagger_name name).
    + by apply IH.
Qed.

(** When no two attributes share a wire name, an attribute that is true is
    found under its wire name. *)
Lemma model_comprehension_field config table acc out key name v w :
  NoDup table.*2 →
  model_comprehension config table acc = Ok out →
  (key, name) ∈ table → getattr config key = Ok v → truthy v = true →
  to_swagger_dict v = Ok w →
  dict_get out name = Some w.
Proof.
  revert acc. induction table as [|[key0 name0] table IH]; intros acc.
  - by intros _ _ ?%elem_of_nil.
  - intros Hnd H Hin Hv Htrue Hw. apply NoDup_cons in Hnd as [Hfresh Hnd].
    simpl in Hfresh.
    apply model_comprehension_cons in H as (v0 & Hv0 & H).
    apply elem_of_cons in Hin as [[= -> ->]|Hin].
    + rewrite Hv in Hv0. injection Hv0 as <-. rewrite Htrue in H.
      destruct H as (w' & Hw' & H). rewrite Hw in Hw'. injection Hw' as <-.
      rewrite (model_comprehension_other _ _ _ _ _ Hfresh H), dict_get_set.
      by rewrite String.eqb_refl.
    + destruct (truthy v0); [destruct H as (w' & _ & H)|]; by eapply IH.
Qed.

Lemma model_comprehension_converted config table acc out key name v :
  model_comprehension config table acc = Ok out →
  (key, name) ∈ table → getattr config key = Ok v → truthy v = true →
  ∃ w, to_swagger_dict v = Ok w.
Proof.
  revert acc. induction table as [|[key0 name0] table IH]; intros acc.
  - by intros _ ?%elem_of_nil.
  - intros H Hin Hv Htrue.
    apply model_comprehension_cons in H as (v0 & Hv0 & H).
    apply elem_of_cons in Hin as [Heq|Hin].
    + injection Heq as <- <-. rewrite Hv in Hv0. injection Hv0 as <-.
      rewrite Htrue in H. destruct H as (w & Hw & _). eauto.
    + destruct (truthy v0); [destruct H as (? & _ & H)|]; by eapply IH.
Qed.

Lemma model_comprehension_total config table acc :
  Forall (λ entry : string * string,
            ∃ v, getattr config entry.1 = Ok v
                 ∧ (truthy v = true → ∃ w, to_swagger_dict v = Ok w))
         table →
  ∃ out, model_comprehension config table acc = Ok out.
Proof.
  intros H. revert acc.
  induction H as [|[key name] table (v & Hv & Hconv) _ IH]; intros acc;
    cbn [model_comprehension]; [by eexists|].
  simpl in Hv. rewrite Hv. cbn [mbind result_bind].
  destruct (truthy v); [|apply IH].
  destruct Hconv as [w Hw]; [done|]. rewrite Hw. cbn. apply IH.
Qed.

(** ** The conversion returns *)

Lemma to_swagger_dict_total config :
  models_complete config = true → ∃ out, to_swagger_dict config = Ok out.
Proof.
  induction config as
    [|b|z|s|items IH|items IH|am attrs d IH _|cls attrs _|name|name|name]
    using value_induction; intros Hwf; try (by eexists).
  - rewrite to_swagger_dict_list.
    destruct (mapM_result_Ok_total to_swagger_dict items) as [l Hl].
    { cbn [models_complete] in Hwf.
      rewrite forallb_forall in Hwf. apply Forall_forall.
      intros x Hx. rewrite Forall_forall in IH.
      destruct (IH x Hx) as [w Hw]; [|by rewrite Hw].
      apply Hwf. by apply list_elem_of_In. }
    rewrite Hl. by eexists.
  - rewrite to_swagger_dict_dict.
    destruct (dict_comprehension_total items []) as [out Hout].
    { cbn [models_complete] in Hwf.
      rewrite forallb_forall in Hwf. apply Forall_forall.
      intros kv Hkv. rewrite Forall_forall in IH. apply (IH kv Hkv).
      apply (Hwf kv). by apply list_elem_of_In. }
    rewrite Hout. by eexists.
  - rewrite to_swagger_dict_model.
    destruct (model_comprehension_total (VModel am attrs d) am []) as [out Hout].
    { cbn [models_complete] in Hwf. apply andb_prop in Hwf as [Hkeys Hattrs].
      rewrite forallb_forall in Hkeys. rewrite forallb_forall in Hattrs.
      apply Forall_forall. intros [key name] Hentry. cbn [fst getattr].
      apply list_elem_of_In, Hkeys in Hentry. cbn [fst] in Hentry.
      destruct (String.eqb key "attribute_map"); simpl in Hentry.
      - eexists. split; [done|]. intros _.
        rewrite to_swagger_dict_attribute_map. by eexists.
      - apply bool_decide_eq_true_1, dict_get_is_Some in Hentry as [v Hv].
        exists v. unfold attr_lookup. rewrite Hv. split; [done|].
        intros _. apply dict_get_elem_of in Hv.
        rewrite Forall_forall in IH. apply (IH _ Hv).
        apply (Hattrs (key, v)). by apply list_elem_of_In. }
    rewrite Hout. by eexists.
Qed.

Lemma NoDup_snd_elem_of {A B} (l : list (A * B)) a a' b :
  NoDup l.*2 → (a, b) ∈ l → (a', b) ∈ l → a = a'.
Proof.
  induction l as [|[a0 b0] l IH]; [by intros _ ?%elem_of_nil|].
  intros [Hfresh Hnd]%NoDup_cons Hin Hin'. simpl in Hfresh.
  apply elem_of_cons in Hin as [Heq|Hin];
    apply elem_of_cons in Hin' as [Heq'|Hin']; simplify_eq; try done.
  - destruct Hfresh. apply list_elem_of_fmap. by exists (a', b0).
  - destruct Hfresh. apply list_elem_of_fmap. by exists (a, b0).
  - by apply IH.
Qed.

(** ** Claims on [to_swagger_dict] *)

(** C8. The conversion maps a list element by element.  It turns an object
    with an [attribute_map] into a dictionary: its keys are the wire names of
    the attributes that are true, each entry is the conversion of such an
    attribute, and, wire names being distinct, an attribute that is true is
    found under its wire name while the wire name of one that is false is
    absent.  It converts the values of a plain dictionary and keeps its
    keys.  It returns any other value as it is.  It returns a result for
    every value whose models have the attributes their tables name. *)
Theorem to_swagger_dict_conversion :
  (∀ items, to_swagger_dict (VList items)
            = VList <$> mapM to_swagger_dict items)
  ∧ (∀ items out,
       to_swagger_dict (VList items) = Ok out →
       ∃ l, out = VList l
            ∧ Forall2 (λ x y, to_swagger_dict x = Ok y) items l)
  ∧ (∀ am attrs d out,
       let config := VModel am attrs d in
       to_swagger_dict config = Ok out →
       ∃ fields,
         out = VDict fields
         ∧ (∀ name, name ∈ dict_keys fields ↔
                    ∃ key v, (key, name) ∈ am ∧ getattr config key = Ok v
                             ∧ truthy v = true)
         ∧ (∀ name w, dict_get fields name = Some w →
                      ∃ key v, (key, name) ∈ am
                               ∧ getattr config key = Ok v
                               ∧ truthy v = true
                               ∧ to_swagger_dict v = Ok w)
         ∧ (NoDup am.*2 →
            ∀ key name v,
              (key, name) ∈ am → getattr config key = Ok v →
              if truthy v
              then ∃ w, to_swagger_dict v = Ok w
                        ∧ dict_get fields name = Some w
              else name ∉ dict_keys fields))
  ∧ (∀ items out,
       NoDup (dict_keys items) →
       to_swagger_dict (VDict items) = Ok out →
       ∃ items', out = VDict items'
                 ∧ Forall2 (λ kv kw : string * value,
                              kw.1 = kv.1 ∧ to_swagger_dict kv.2 = Ok kw.2)
                           items items')
  ∧ (∀ config,
       isinstance_list config = false →
       hasattr config "attribute_map" = false →
       isinstance_dict config = false →
       to_swagger_dict config = Ok config)
  ∧ (∀ config, models_complete config = true →
               ∃ out, to_swagger_dict config = Ok out).
Proof.
  split; [apply to_swagger_dict_list|].
  split.
  { intros items out. rewrite to_swagger_dict_list.
    destruct (mapM to_swagger_dict items) as [l|e] eqn:Hl; [|done].
    intros [= <-]. exists l. split; [done|]. by apply mapM_result_Ok. }
  split.
  { intros am attrs d out config. unfold config.
    rewrite to_swagger_dict_model.
    destruct (model_comprehension _ am []) as [fields|e] eqn:Hf; [|done].
    intros [= <-]. exists fields. split; [done|].
    split; [|split].
    - intros name. rewrite (model_comprehension_keys _ _ _ _ Hf name).
      split; [|by right]. intros [?%elem_of_nil|?]; done.
    - intros name w Hget.
      by destruct (model_comprehension_values _ _ _ _ _ _ Hf Hget).
    - intros Hnd key name v Hin Hv. destruct (truthy v) eqn:Htrue.
      + destruct (model_comprehension_converted _ _ _ _ _ _ _
                    Hf Hin Hv Htrue) as [w Hw].
        exists w. split; [done|].
        by eapply model_comprehension_field.
      + rewrite (model_comprehension_keys _ _ _ _ Hf name).
        intros [?%elem_of_nil|(key' & v' & Hin' & Hv' & Htrue')]; [done|].
        rewrite (NoDup_snd_elem_of _ _ _ _ Hnd Hin' Hin) in Hv'.
        congruence. }
  split.
  { intros items out Hnd. rewrite to_swagger_dict_dict.
    destruct (dict_comprehension items []) as [items'|e] eqn:Hd; [|done].
    intros [= <-]. exists items'. split; [done|].
    by destruct (dict_comprehension_NoDup items [] items' Hnd Hd)
      as (? & -> & ?). }
  split; [|apply to_swagger_dict_total].
  intros config Hl Ha Hd. rewrite to_swagger_dict_unfold.
  by rewrite Hl, Ha, Hd.
Qed.

(** The example the specification gives: the wire name of an attribute
    that holds the empty string is left out, the one of an attribute that
    holds a string is kept. *)
Example to_swagger_dict_omits_empty_field :
  to_swagger_dict
    (VList [VModel [("internal", "external")] [("internal", VStr "")] None;
            VModel [("internal", "external")] [("internal", VStr "x")] None])
  = Ok (VList [VDict []; VDict [("external", VStr "x")]]).
Proof. reflexivity. Qed.

Lemma to_swagger_dict_conversion_witness :
  ∃ out, to_swagger_dict
           (VModel [("api_version", "apiVersion"); ("kind", "kind")]
                   [("api_version", VStr "v1"); ("kind", VNone)] None)
         = Ok out.
Proof.
  apply (proj2 (proj2 (proj2 (proj2 (proj2 to_swagger_dict_conversion))))).
  reflexivity.
Defined.

(** C10. A plain dictionary keeps all its keys, those of values that are
    false too, and in their order; a list keeps all its elements.  The
    entries left out are those of an object with an [attribute_map] only,
    and such an object is converted through its table also when it is a
    dictionary: the items it holds as a dictionary are not looked at. *)
Theorem to_swagger_dict_plain_dict :
  (∀ items out,
     to_swagger_dict (VDict items) = Ok out →
     ∃ items', out = VDict items'
               ∧ (∀ k, k ∈ dict_keys items' ↔ k ∈ dict_keys items)
               ∧ (NoDup (dict_keys items) →
                  dict_keys items' = dict_keys items))
  ∧ (∀ items k v items',
       to_swagger_dict (VDict items) = Ok (VDict items') →
       (k, v) ∈ items → truthy v = false → k ∈ dict_keys items')
  ∧ (∀ items, models_complete (VDict items) = true →
              ∃ out, to_swagger_dict (VDict items) = Ok out)
  ∧ (∀ items out,
       to_swagger_dict (VList items) = Ok out →
       ∃ l, out = VList l ∧ length l = length items)
  ∧ (∀ am attrs items,
       let config := VModel am attrs (Some items) in
       isinstance_dict config = true
       ∧ hasattr config "attribute_map" = true
       ∧ to_swagger_dict config
         = VDict <$> model_comprehension config am []
       ∧ to_swagger_dict config = to_swagger_dict (VModel am attrs None)).
Proof.
  assert (∀ items out,
            to_swagger_dict (VDict items) = Ok out →
            ∃ items', out = VDict items'
                      ∧ dict_comprehension items [] = Ok items') as Hdict.
  { intros items out. rewrite to_swagger_dict_dict.
    destruct (dict_comprehension items []) as [items'|e]; [|done].
    intros [= <-]. eauto. }
  split; [|split; [|split; [|split]]].
  - intros items out Hout.
    destruct (Hdict items out Hout) as (items' & -> & Hd).
    exists items'. split; [done|]. split.
    + intros k. rewrite (dict_comprehension_keys _ _ _ Hd k).
      split; [|by right]. intros [?%elem_of_nil|?]; done.
    + intros Hnd.
      destruct (dict_comprehension_NoDup items [] items' Hnd Hd)
        as (l & -> & Hall). simpl. by eapply converted_items_keys.
  - intros items k v items' Hout Hin _.
    destruct (Hdict items _ Hout) as (? & [= <-] & Hd).
    rewrite (dict_comprehension_keys _ _ _ Hd k). right.
    apply list_elem_of_fmap. by exists (k, v).
  - intros items. apply to_swagger_dict_total.
  - intros items out. rewrite to_swagger_dict_list.
    destruct (mapM to_swagger_dict items) as [l|e] eqn:Hl; [|done].
    intros [= <-]. exists l. split; [done|].
    by eapply mapM_result_length.
  - intros am attrs items config. repeat split.
    apply to_swagger_dict_model.
Qed.

Lemma to_swagger_dict_plain_dict_witness :
  dict_keys [("a", VStr ""); ("b", VNone); ("c", VInt 1)]
  = dict_keys [("a", VStr ""); ("b", VNone); ("c", VInt 1)]
  ∧ to_swagger_dict (VDict [("a", VStr ""); ("b", VNone); ("c", VInt 1)])
    = Ok (VDict [("a", VStr ""); ("b", VNone); ("c", VInt 1)]).
Proof.
  destruct (proj1 to_swagger_dict_plain_dict
              [("a", VStr ""); ("b", VNone); ("c", VInt 1)]
              (VDict [("a", VStr ""); ("b", VNone); ("c", VInt 1)])
              eq_refl) as (items' & Heq & _ & Hkeys).
  injection Heq as <-. split; [|reflexivity].
  apply Hkeys. unfold dict_keys. simpl.
  repeat (apply NoDup_cons; split; [by intros ?%list_elem_of_In; simpl in *; intuition discriminate|]).
  apply NoDup_nil. done.
Defined.

(** A dictionary that is also a model is converted as a model. *)
Example to_swagger_dict_model_before_dict :
  to_swagger_dict
    (VModel [("kind", "Kind")] [("kind", VStr "Pod")]
            (Some [("held", VStr "item")]))
  = Ok (VDict [("Kind", VStr "Pod")]).
Proof. reflexivity. Qed.

(** ** The functions over a store *)

Lemma run_bind {S A B} (m : M S A) (f : A → M S B) (s : S) :
  (m ≫= f) s =
  match m s with
  | (Ok x, s') => f x s'
  | (Raise e, s') => (Raise e, s')
  end.
Proof. reflexivity. Qed.

Lemma lookup_snoc {A} (h : list A) (o : A) : (h ++ [o]) !! length h = Some o.
Proof. by apply list_lookup_middle. Qed.

Lemma insert_snoc {A} (h : list A) (o o' : A) :
  <[length h := o']> (h ++ [o]) = h ++ [o'].
Proof. induction h as [|x h IH]; simpl; [done|]. by rewrite IH. Qed.

Lemma prefix_lookup_keeps {A} (h h' : list A) l o :
  h `prefix_of` h' → h !! l = Some o → h' !! l = Some o.
Proof. intros Hp Hl. by eapply prefix_lookup_Some. Qed.

Lemma heap_read_field_keeps h h' field items :
  h `prefix_of` h' →
  Heap.read_field h field = Some items → Heap.read_field h' field = Some items.
Proof.
  intros Hp. destruct field as [l|]; cbn [Heap.read_field]; [|done].
  destruct (h !! l) as [o|] eqn:Hl; [|done].
  by rewrite (prefix_lookup_keeps h h' l o Hp Hl).
Qed.

Lemma heap_or_empty_read h field items :
  Heap.read_field h field = Some items →
  Heap.or_empty h field = Ok (or_empty items).
Proof.
  destruct field as [l|]; cbn [Heap.read_field Heap.or_empty];
    [|by intros [= <-]].
  unfold Heap.read_list. destruct (h !! l) as [[]|]; try done.
  intros [= <-]. by rewrite or_empty_Some.
Qed.

Section HeapResolver.
Variables gv gi go : string → list Heap.obj → result value.
Variables pv pi po : string → result value.

Lemma heap_expand_read h0 h' tok :
  getters_read gv gi go pv pi po h0 → h0 `prefix_of` h' →
  Heap.expand_command_line_arg gv gi go tok h'
  = expand_command_line_arg pv pi po tok.
Proof.
  intros Hg Hp. destruct tok; try done; simpl;
    by destruct (Hg input_name h' Hp) as (? & ? & ?)
    || by destruct (Hg output_name h' Hp) as (? & ? & ?).
Qed.

(** The loop only writes to the list it builds, which is the last object
    of the store. *)
Lemma heap_resolve_loop_spec todo acc h0 c :
  ∃ r acc',
    Heap.resolve_loop gv gi go todo (length h0)
      {| Heap.heap := h0 ++ [Heap.OList acc]; Heap.calls := c |}
    = (r, {| Heap.heap := h0 ++ [Heap.OList acc']; Heap.calls := c |})
    ∧ (getters_read gv gi go pv pi po h0 →
       match r with
       | Ok _ => resolve_loop pv pi po todo acc = Ok acc'
       | Raise e => resolve_loop pv pi po todo acc = Raise e
       end).
Proof.
  revert acc. induction todo as [|tok todo IH]; intros acc.
  - exists (Ok tt), acc. split; [done|]. by intros _.
  - cbn [Heap.resolve_loop resolve_loop]. rewrite run_bind.
    unfold Heap.reading at 1. cbn [Heap.heap].
    assert (getters_read gv gi go pv pi po h0 →
            expand_command_line_arg pv pi po tok
            = Heap.expand_command_line_arg gv gi go tok
                (h0 ++ [Heap.OList acc])) as Hpure.
    { intros Hg. symmetry. apply (heap_expand_read h0); [done|].
      by apply prefix_app_r. }
    destruct (Heap.expand_command_line_arg gv gi go tok
                (h0 ++ [Heap.OList acc])) as [v|e] eqn:Hexp.
    2:{ exists (Raise e), acc. split; [done|]. intros Hg.
        by rewrite (Hpure Hg). }
    rewrite run_bind. unfold lift at 1.
    destruct (isinstance_str v) eqn:Hstr; cbn [assert].
    2:{ exists (Raise AssertionError), acc. split; [done|]. intros Hg.
        rewrite (Hpure Hg). cbn. by rewrite Hstr. }
    rewrite run_bind. unfold Heap.append at 1. cbn [Heap.heap Heap.calls].
    rewrite lookup_snoc, insert_snoc.
    destruct (IH (acc ++ [v])) as (r & acc' & Hrun & Href).
    exists r, acc'. split; [done|]. intros Hg.
    rewrite (Hpure Hg). cbn. rewrite Hstr. cbn. by apply Href.
Qed.
End HeapResolver.

Lemma heap_typed_command h h' spec_loc spec :
  Heap.read_tmpl h spec_loc = Some (TypedPlaceholders spec) →
  h `prefix_of` h' →
  ∃ command,
    h' !! spec_loc = Some (Heap.OContainerSpec (structures.image spec) command)
    ∧ Heap.command_of h' spec_loc = Ok command
    ∧ Heap.or_empty h' command = Ok (or_empty (structures.command spec)).
Proof.
  unfold Heap.read_tmpl, Heap.command_of. intros Hread Hp.
  destruct (h !! spec_loc) as [o|] eqn:Hl; [|done].
  rewrite (prefix_lookup_keeps h h' spec_loc o Hp Hl).
  destruct o as [| | |image command|image command args|]; try done.
  - destruct (Heap.read_field h command) as [c|] eqn:Hc; [|done].
    injection Hread as <-. exists command. repeat split.
    apply heap_or_empty_read. by eapply heap_read_field_keeps.
  - destruct (Heap.read_field h command); [|done].
    by destruct (Heap.read_field h args).
Qed.

(** The resolver creates one list and leaves every other object as it
    is; what the list holds in the end is what the function of the values
    computes. *)
Lemma heap_resolve_command_line_spec
    (gv gi go : string → list Heap.obj → result value) spec_loc h c :
  ∃ r items,
    Heap.resolve_command_line gv gi go spec_loc
      {| Heap.heap := h; Heap.calls := c |}
    = (r, {| Heap.heap := h ++ [Heap.OList items]; Heap.calls := c |})
    ∧ (∀ l, r = Ok l → l = length h)
    ∧ (∀ pv pi po spec,
         Heap.read_tmpl h spec_loc = Some (TypedPlaceholders spec) →
         getters_read gv gi go pv pi po h →
         match r with
         | Ok _ => resolve_command_line pv pi po spec = Ok items
         | Raise e => resolve_command_line pv pi po spec = Raise e
         end).
Proof.
  unfold Heap.resolve_command_line. rewrite run_bind.
  unfold Heap.alloc at 1. cbn [Heap.heap Heap.calls].
  rewrite run_bind. unfold Heap.reading at 1. cbn [Heap.heap].
  destruct (Heap.command_of (h ++ [Heap.OList []]) spec_loc)
    as [command|e] eqn:Hcmd.
  2:{ exists (Raise e), []. split; [done|]. split; [done|].
      intros pv pi po spec Hread _.
      destruct (heap_typed_command h (h ++ [Heap.OList []]) _ _ Hread)
        as (? & _ & Hc & _); [by apply prefix_app_r|]. congruence. }
  rewrite run_bind. unfold Heap.reading at 1. cbn [Heap.heap].
  destruct (Heap.or_empty (h ++ [Heap.OList []]) command)
    as [todo|e] eqn:Htodo.
  2:{ exists (Raise e), []. split; [done|]. split; [done|].
      intros pv pi po spec Hread _.
      destruct (heap_typed_command h (h ++ [Heap.OList []]) _ _ Hread)
        as (? & _ & Hc & Ht); [by apply prefix_app_r|]. congruence. }
  rewrite run_bind.
  assert (∀ pv pi po spec,
            Heap.read_tmpl h spec_loc = Some (TypedPlaceholders spec) →
            resolve_command_line pv pi po spec
            = resolve_loop pv pi po todo []) as Hpure.
  { intros pv pi po spec Hread. unfold resolve_command_line.
    destruct (heap_typed_command h (h ++ [Heap.OList []]) _ _ Hread)
      as (? & _ & Hc & Ht); [by apply prefix_app_r|]. congruence. }
  assert (∃ r acc',
            Heap.resolve_loop gv gi go todo (length h)
              {| Heap.heap := h ++ [Heap.OList []]; Heap.calls := c |}
            = (r, {| Heap.heap := h ++ [Heap.OList acc'];
                     Heap.calls := c |})
            ∧ ∀ pv pi po, getters_read gv gi go pv pi po h →
                match r with
                | Ok _ => resolve_loop pv pi po todo [] = Ok acc'
                | Raise e => resolve_loop pv pi po todo [] = Raise e
                end) as (r & acc' & Hrun & Href).
  { destruct (heap_resolve_loop_spec gv gi go
                (λ name, gv name h) (λ name, gi name h) (λ name, go name h)
                todo [] h c) as (r & acc' & Hrun & _).
    exists r, acc'. split; [done|]. intros pv pi po Hg.
    destruct (heap_resolve_loop_spec gv gi go pv pi po todo [] h c)
      as (r' & acc'' & Hrun' & Href).
    rewrite Hrun in Hrun'. injection Hrun' as <- Hacc.
    apply app_inv_head in Hacc. injection Hacc as <-. by apply Href. }
  rewrite Hrun. destruct r as [[]|e].
  - exists (Ok (length h)), acc'. split; [done|]. split; [by intros l [= <-]|].
    intros pv pi po spec Hread Hg. rewrite (Hpure _ _ _ _ Hread).
    by apply (Href pv pi po).
  - exists (Raise e), acc'. split; [done|]. split; [done|].
    intros pv pi po spec Hread Hg. rewrite (Hpure _ _ _ _ Hread).
    by apply (Href pv pi po).
Qed.

(** The getters over the dictionaries read the dictionaries. *)
Lemma heap_getters_read h input_dict output_dict exec_properties id od ep :
  h !! input_dict = Some (Heap.OArtifactDict id) →
  h !! output_dict = Some (Heap.OArtifactDict od) →
  h !! exec_properties = Some (Heap.OProperties ep) →
  getters_read (Heap.input_value_getter exec_properties)
               (Heap.input_uri_getter input_dict)
               (Heap.output_uri_getter output_dict)
               (input_value_getter ep) (input_uri_getter id)
               (output_uri_getter od) h.
Proof.
  intros Hi Ho He name h' Hp.
  unfold Heap.input_value_getter, Heap.input_uri_getter,
    Heap.output_uri_getter.
  rewrite (prefix_lookup_keeps h h' _ _ Hp Hi),
    (prefix_lookup_keeps h h' _ _ Hp Ho),
    (prefix_lookup_keeps h h' _ _ Hp He). done.
Qed.

Lemma heap_read_tmpl_keeps h h' l t :
  h `prefix_of` h' →
  Heap.read_tmpl h l = Some t → Heap.read_tmpl h' l = Some t.
Proof.
  intros Hp. unfold Heap.read_tmpl.
  destruct (h !! l) as [o|] eqn:Hl; [|done].
  rewrite (prefix_lookup_keeps h h' l o Hp Hl).
  destruct o as [| | |image command|image command args|]; try done.
  - destruct (Heap.read_field h command) as [c|] eqn:Hc; [|done].
    by rewrite (heap_read_field_keeps h h' _ _ Hp Hc).
  - destruct (Heap.read_field h command) as [c|] eqn:Hc; [|done].
    rewrite (heap_read_field_keeps h h' _ _ Hp Hc).
    destruct (Heap.read_field h args) as [a|] eqn:Ha; [|done].
    by rewrite (heap_read_field_keeps h h' _ _ Hp Ha).
Qed.

Section HeapRenderer.
Variable heap_jinja2_render : value → nat → list Heap.obj → result value.
Variable ctx_loc : nat.

Lemma heap_render_each_cons item items h c :
  Heap.render_each heap_jinja2_render (item :: items) ctx_loc
    {| Heap.heap := h; Heap.calls := c |} =
  match heap_jinja2_render item ctx_loc h with
  | Ok rendered =>
      match Heap.render_each heap_jinja2_render items ctx_loc
              {| Heap.heap := h; Heap.calls := c ++ [item] |} with
      | (Ok rest, st) => (Ok (rendered :: rest), st)
      | (Raise e, st) => (Raise e, st)
      end
  | Raise e => (Raise e, {| Heap.heap := h; Heap.calls := c ++ [item] |})
  end.
Proof.
  cbn [Heap.render_each]. rewrite run_bind.
  unfold Heap._render_text at 1. cbn [Heap.heap Heap.calls].
  destruct (heap_jinja2_render item ctx_loc h); [|done].
  rewrite run_bind. by destruct (Heap.render_each _ _ _ _) as [[|] ?].
Qed.

(** Rendering leaves the store as it is. *)
Lemma heap_render_each_spec items h c :
  ∃ r c',
    Heap.render_each heap_jinja2_render items ctx_loc
      {| Heap.heap := h; Heap.calls := c |}
    = (r, {| Heap.heap := h; Heap.calls := c' |})
    ∧ (∀ jinja2_render ctx h0,
         engine_reads heap_jinja2_render jinja2_render ctx_loc ctx h0 →
         h0 `prefix_of` h →
         render_each jinja2_render items ctx c = (r, c')).
Proof.
  revert c. induction items as [|item items IH]; intros c.
  - exists (Ok []), c. by split.
  - rewrite heap_render_each_cons.
    destruct (heap_jinja2_render item ctx_loc h) as [rendered|e] eqn:Hitem.
    + destruct (IH (c ++ [item])) as (r & c' & Hrun & Href). rewrite Hrun.
      destruct r as [rest|e].
      * exists (Ok (rendered :: rest)), c'. split; [done|].
        intros jinja2_render ctx h0 Hengine Hp. rewrite render_each_cons.
        rewrite <- (Hengine item h Hp), Hitem.
        by rewrite (Href _ _ h0 Hengine Hp).
      * exists (Raise e), c'. split; [done|].
        intros jinja2_render ctx h0 Hengine Hp. rewrite render_each_cons.
        rewrite <- (Hengine item h Hp), Hitem.
        by rewrite (Href _ _ h0 Hengine Hp).
    + exists (Raise e), (c ++ [item]). split; [done|].
      intros jinja2_render ctx h0 Hengine Hp. rewrite render_each_cons.
      by rewrite <- (Hengine item h Hp), Hitem.
Qed.

(** [_render_items] creates at most one list and leaves every other object
    as it is. *)
Lemma heap__render_items_spec items h c :
  ∃ r extra c',
    Heap._render_items heap_jinja2_render items ctx_loc
      {| Heap.heap := h; Heap.calls := c |}
    = (r, {| Heap.heap := h ++ extra; Heap.calls := c' |})
    ∧ (∀ jinja2_render ctx h0 field,
         engine_reads heap_jinja2_render jinja2_render ctx_loc ctx h0 →
         h0 `prefix_of` h →
         Heap.read_field h items = Some field →
         ∃ r',
           _render_items jinja2_render field ctx c = (r', c')
           ∧ same_outcome
               (λ out out', Heap.read_field (h ++ extra) out = Some out')
               r r').
Proof.
  unfold Heap._render_items. rewrite run_bind.
  unfold Heap.reading at 1. cbn [Heap.heap].
  destruct (Heap.or_empty h items) as [texts|e] eqn:Htexts.
  2:{ exists (Raise e), [], c. rewrite app_nil_r. split; [done|].
      intros jinja2_render ctx h0 field _ _ Hfield.
      rewrite (heap_or_empty_read _ _ _ Hfield) in Htexts. done. }
  destruct (is_empty (Some texts)) eqn:Hempty.
  - exists (Ok items), [], c. rewrite app_nil_r. split; [done|].
    intros jinja2_render ctx h0 field _ _ Hfield.
    rewrite (heap_or_empty_read _ _ _ Hfield) in Htexts.
    injection Htexts as <-.
    exists (Ok field). split; [|done].
    apply _render_items_empty. by destruct field as [[|]|].
  - rewrite run_bind.
    destruct (heap_render_each_spec texts h c) as (r & c' & Hrun & Href).
    rewrite Hrun. destruct r as [rendered|e].
    + exists (Ok (Some (length h))), [Heap.OList rendered], c'.
      split; [done|]. intros jinja2_render ctx h0 field Hengine Hp Hfield.
      rewrite (heap_or_empty_read _ _ _ Hfield) in Htexts.
      injection Htexts as <-.
      exists (Ok (Some rendered)). split.
      * unfold _render_items.
        replace (is_empty field) with false by (by destruct field as [[|]|]).
        rewrite run_bind. by rewrite (Href _ _ h0 Hengine Hp).
      * cbn [same_outcome Heap.read_field]. by rewrite lookup_snoc.
    + exists (Raise e), [], c'. rewrite app_nil_r. split; [done|].
      intros jinja2_render ctx h0 field Hengine Hp Hfield.
      rewrite (heap_or_empty_read _ _ _ Hfield) in Htexts.
      injection Htexts as <-.
      exists (Raise e). split; [|done].
      unfold _render_items.
      replace (is_empty field) with false by (by destruct field as [[|]|]).
      rewrite run_bind. by rewrite (Href _ _ h0 Hengine Hp).
Qed.
End HeapRenderer.

(** [resolve_container_template] creates objects and leaves every object
    that was there as it is; what it returns stands for what the function
    of the values computes from what its arguments stand for. *)
Lemma heap_resolve_container_template_spec
    (heap_jinja2_render : value → nat → list Heap.obj → result value)
    tmpl input_dict output_dict exec_properties h c :
  ∃ r extra c',
    Heap.resolve_container_template heap_jinja2_render
      tmpl input_dict output_dict exec_properties
      {| Heap.heap := h; Heap.calls := c |}
    = (r, {| Heap.heap := h ++ extra; Heap.calls := c' |})
    ∧ (∀ jinja2_render t id od ep,
         Heap.read_tmpl h tmpl = Some t →
         h !! input_dict = Some (Heap.OArtifactDict id) →
         h !! output_dict = Some (Heap.OArtifactDict od) →
         h !! exec_properties = Some (Heap.OProperties ep) →
         engine_reads heap_jinja2_render jinja2_render (length h)
           {| ctx_input_dict := id; ctx_output_dict := od;
              ctx_exec_properties := ep |}
           (h ++ [Heap.OContext input_dict output_dict exec_properties]) →
         ∃ r',
           resolve_container_template jinja2_render t id od ep c = (r', c')
           ∧ same_outcome
               (λ l spec,
                  Heap.read_tmpl (h ++ extra) l = Some (FreeText spec))
               r r').
Proof.
  unfold Heap.resolve_container_template. rewrite run_bind.
  unfold Heap.alloc at 1. cbn [Heap.heap Heap.calls].
  set (h1 := h ++ [Heap.OContext input_dict output_dict exec_properties]).
  assert (h `prefix_of` h1) as Hp1 by (by apply prefix_app_r).
  rewrite run_bind. unfold Heap.reading at 1. cbn [Heap.heap].
  destruct (h1 !! tmpl) as [o|] eqn:Htmpl.
  2:{ exists (Raise TypeError), [Heap.OContext input_dict output_dict
                                   exec_properties], c.
      split; [done|]. intros jinja2_render t id od ep Hread _ _ _ _.
      apply (heap_read_tmpl_keeps h h1 _ _ Hp1) in Hread.
      unfold Heap.read_tmpl in Hread. by rewrite Htmpl in Hread. }
  destruct o as [items|d|d|image command|image command args|i o e].
  1-3,6:
    (exists (Raise AttributeError),
       [Heap.OContext input_dict output_dict exec_properties], c;
     split; [done|]; intros jinja2_render t id od ep Hread _ _ _ _;
     apply (heap_read_tmpl_keeps h h1 _ _ Hp1) in Hread;
     unfold Heap.read_tmpl in Hread; by rewrite Htmpl in Hread).
  - (* typed placeholders *)
    rewrite run_bind. unfold Heap.resolve_command_line_for_non_managed.
    destruct (heap_resolve_command_line_spec
                (Heap.input_value_getter exec_properties)
                (Heap.input_uri_getter input_dict)
                (Heap.output_uri_getter output_dict) tmpl h1 c)
      as (r & items & Hrun & Hloc & Href).
    rewrite Hrun. destruct r as [l|e].
    + rewrite (Hloc l eq_refl). rewrite run_bind.
      unfold Heap.alloc. cbn [Heap.heap Heap.calls].
      eexists (Ok _), _, c. split.
      { unfold h1. rewrite <- !app_assoc. reflexivity. }
      intros jinja2_render t id od ep Hread Hi Ho He _.
      apply (heap_read_tmpl_keeps h h1 _ _ Hp1) in Hread.
      pose proof Hread as Hread'.
      unfold Heap.read_tmpl in Hread'. rewrite Htmpl in Hread'.
      destruct (Heap.read_field h1 command) as [pc|] eqn:Hpc; [|done].
      injection Hread' as <-.
      rewrite resolve_container_template_typed_unfold.
      rewrite (Href _ _ _ _ Hread
                 (heap_getters_read h1 _ _ _ id od ep
                    (prefix_lookup_keeps h h1 _ _ Hp1 Hi)
                    (prefix_lookup_keeps h h1 _ _ Hp1 Ho)
                    (prefix_lookup_keeps h h1 _ _ Hp1 He))).
      eexists. split; [reflexivity|]. cbn [same_outcome mbind result_bind].
      unfold Heap.read_tmpl.
      rewrite !app_assoc. fold h1.
      replace (length (h1 ++ [Heap.OList items]))
        with (length h1 + 1) by (rewrite length_app; simpl; lia).
      replace (length ((h1 ++ [Heap.OList items]) ++ [Heap.OList []]))
        with (length h1 + 2) by (rewrite !length_app; simpl; lia).
      rewrite <- !app_assoc. cbn [app].
      rewrite (lookup_app_r h1) by lia.
      replace (length h1 + 2 - length h1) with 2 by lia.
      cbn [lookup list_lookup Heap.read_field mbind option_bind].
      rewrite !(lookup_app_r h1) by lia.
      replace (length h1 - length h1) with 0 by lia.
      replace (length h1 + 1 - length h1) with 1 by lia.
      reflexivity.
    + exists (Raise e), ([Heap.OContext input_dict output_dict
                            exec_properties] ++ [Heap.OList items]), c.
      split; [by rewrite app_assoc|].
      intros jinja2_render t id od ep Hread Hi Ho He _.
      apply (heap_read_tmpl_keeps h h1 _ _ Hp1) in Hread.
      pose proof Hread as Hread'.
      unfold Heap.read_tmpl in Hread'. rewrite Htmpl in Hread'.
      destruct (Heap.read_field h1 command) as [pc|] eqn:Hpc; [|done].
      injection Hread' as <-.
      rewrite resolve_container_template_typed_unfold.
      rewrite (Href _ _ _ _ Hread
                 (heap_getters_read h1 _ _ _ id od ep
                    (prefix_lookup_keeps h h1 _ _ Hp1 Hi)
                    (prefix_lookup_keeps h h1 _ _ Hp1 Ho)
                    (prefix_lookup_keeps h h1 _ _ Hp1 He))).
      eexists. split; [reflexivity|]. done.
  - (* free text *)
    rewrite run_bind. unfold Heap._render_text at 1.
    cbn [Heap.heap Heap.calls].
    assert (length h1 = S (length h)) as Hlen.
    { unfold h1. rewrite length_app. simpl. lia. }
    destruct (heap_jinja2_render image (length h) h1) as [image'|e] eqn:Himg.
    2:{ exists (Raise e), [Heap.OContext input_dict output_dict
                             exec_properties], (c ++ [image]).
        split; [done|]. intros jinja2_render t id od ep Hread _ _ _ Hengine.
        apply (heap_read_tmpl_keeps h h1 _ _ Hp1) in Hread.
        unfold Heap.read_tmpl in Hread. rewrite Htmpl in Hread.
        destruct (Heap.read_field h1 command) as [pc|]; [|done].
        destruct (Heap.read_field h1 args) as [pa|]; [|done].
        injection Hread as <-.
        rewrite resolve_container_template_free_text_unfold.
        cbn [executor_spec.image].
        rewrite <- (Hengine image h1) by done. rewrite Himg.
        eexists. split; [reflexivity|]. done. }
    rewrite run_bind.
    destruct (heap__render_items_spec heap_jinja2_render (length h)
                command h1 (c ++ [image]))
      as (r1 & e1 & c1 & Hrun1 & Href1).
    rewrite Hrun1.
    assert (∀ jinja2_render t id od ep,
              Heap.read_tmpl h tmpl = Some t →
              engine_reads heap_jinja2_render jinja2_render (length h)
                {| ctx_input_dict := id; ctx_output_dict := od;
                   ctx_exec_properties := ep |} h1 →
              ∃ pc pa,
                t = FreeText {| executor_spec.image := image;
                                executor_spec.command := pc;
                                executor_spec.args := pa |}
                ∧ Heap.read_field h1 command = Some pc
                ∧ Heap.read_field h1 args = Some pa
                ∧ jinja2_render image
                    {| ctx_input_dict := id; ctx_output_dict := od;
                       ctx_exec_properties := ep |} = Ok image') as Hfree.
    { intros jinja2_render t id od ep Hread Hengine.
      apply (heap_read_tmpl_keeps h h1 _ _ Hp1) in Hread.
      unfold Heap.read_tmpl in Hread. rewrite Htmpl in Hread.
      destruct (Heap.read_field h1 command) as [pc|]; [|done].
      destruct (Heap.read_field h1 args) as [pa|]; [|done].
      injection Hread as <-. exists pc, pa. repeat split.
      by rewrite <- (Hengine image h1). }
    destruct r1 as [command'|e].
    2:{ exists (Raise e),
          ([Heap.OContext input_dict output_dict exec_properties] ++ e1), c1.
        split; [by rewrite app_assoc|].
        intros jinja2_render t id od ep Hread _ _ _ Hengine.
        destruct (Hfree _ _ _ _ _ Hread Hengine)
          as (pc & pa & -> & Hpc & Hpa & Himage).
        rewrite resolve_container_template_free_text_unfold.
        cbn [executor_spec.image executor_spec.command executor_spec.args].
        rewrite Himage.
        destruct (Href1 _ _ h1 pc Hengine (reflexivity _) Hpc)
          as (r' & -> & Hsame).
        destruct r' as [|e']; [done|]. simpl in Hsame. subst e'.
        eexists. split; [reflexivity|]. done. }
    rewrite run_bind.
    destruct (heap__render_items_spec heap_jinja2_render (length h)
                args (h1 ++ e1) c1)
      as (r2 & e2 & c2 & Hrun2 & Href2).
    rewrite Hrun2.
    destruct r2 as [args'|e].
    2:{ exists (Raise e),
          ([Heap.OContext input_dict output_dict exec_properties]
             ++ e1 ++ e2), c2.
        split; [by rewrite !app_assoc|].
        intros jinja2_render t id od ep Hread _ _ _ Hengine.
        destruct (Hfree _ _ _ _ _ Hread Hengine)
          as (pc & pa & -> & Hpc & Hpa & Himage).
        rewrite resolve_container_template_free_text_unfold.
        cbn [executor_spec.image executor_spec.command executor_spec.args].
        rewrite Himage.
        destruct (Href1 _ _ h1 pc Hengine (reflexivity _) Hpc)
          as (r' & -> & Hsame).
        destruct r' as [pc'|]; [|done].
        destruct (Href2 _ _ h1 pa Hengine (prefix_app_r _ _ _ (reflexivity _)))
          as (r'' & -> & Hsame').
        { by apply (heap_read_field_keeps h1), Hpa; apply prefix_app_r. }
        destruct r'' as [|e']; [done|]. simpl in Hsame'. subst e'.
        eexists. split; [reflexivity|]. done. }
    unfold Heap.alloc. cbn [Heap.heap Heap.calls].
    exists (Ok (length ((h1 ++ e1) ++ e2))),
      ([Heap.OContext input_dict output_dict exec_properties] ++ e1 ++ e2
         ++ [Heap.OExecutorContainerSpec image' command' args']), c2.
    assert (h ++ [Heap.OContext input_dict output_dict exec_properties]
              ++ e1 ++ e2
              ++ [Heap.OExecutorContainerSpec image' command' args']
            = ((h1 ++ e1) ++ e2)
              ++ [Heap.OExecutorContainerSpec image' command' args'])
      as Hheap.
    { unfold h1. by rewrite <- !app_assoc. }
    rewrite Hheap. split; [done|].
    intros jinja2_render t id od ep Hread _ _ _ Hengine.
    destruct (Hfree _ _ _ _ _ Hread Hengine)
      as (pc & pa & -> & Hpc & Hpa & Himage).
    rewrite resolve_container_template_free_text_unfold.
    cbn [executor_spec.image executor_spec.command executor_spec.args].
    rewrite Himage.
    destruct (Href1 _ _ h1 pc Hengine (reflexivity _) Hpc)
      as (r' & -> & Hsame).
    destruct r' as [pc'|]; [|done].
    destruct (Href2 _ _ h1 pa Hengine (prefix_app_r _ _ _ (reflexivity _)))
      as (r'' & -> & Hsame').
    { by apply (heap_read_field_keeps h1), Hpa; apply prefix_app_r. }
    destruct r'' as [pa'|]; [|done].
    eexists. split; [reflexivity|]. cbn [same_outcome] in *.
    unfold Heap.read_tmpl. rewrite lookup_snoc.
    rewrite (heap_read_field_keeps (h1 ++ e1) _ command' pc'
               (prefix_app_r _ _ _
                  (prefix_app_r _ _ _ (reflexivity _))) Hsame).
    by rewrite (heap_read_field_keeps ((h1 ++ e1) ++ e2) _ args' pa'
                  (prefix_app_r _ _ _ (reflexivity _)) Hsame').
Qed.

(** ** Claim on the effects of the two functions *)

(** C7. With getters and a template engine that only read the store, a call
    of [resolve_command_line] or of [resolve_container_template] leaves every
    object that was in the store as it is, so the template, its [command]
    and [args] lists, the two dictionaries of artifacts and
    [exec_properties] are after the call what they were before it.  What a
    call returns stands for what the function of the values computes from
    what the arguments stand for; hence two calls whose arguments stand for
    the same values hand the same texts to the engine and end in the same
    error or return objects that stand for the same specification. *)
Theorem resolution_leaves_inputs_unchanged :
  (∀ gv gi go spec_loc st,
     let run := Heap.resolve_command_line gv gi go spec_loc st in
     (∀ l o, Heap.heap st !! l = Some o → Heap.heap run.2 !! l = Some o)
     ∧ Heap.calls run.2 = Heap.calls st
     ∧ (∀ pv pi po spec,
          Heap.read_tmpl (Heap.heap st) spec_loc
          = Some (TypedPlaceholders spec) →
          getters_read gv gi go pv pi po (Heap.heap st) →
          same_outcome
            (λ l items, Heap.heap run.2 !! l = Some (Heap.OList items))
            run.1 (resolve_command_line pv pi po spec)))
  ∧ (∀ heap_jinja2_render tmpl input_dict output_dict exec_properties st,
       let run := Heap.resolve_container_template heap_jinja2_render
                    tmpl input_dict output_dict exec_properties st in
       (∀ l o, Heap.heap st !! l = Some o → Heap.heap run.2 !! l = Some o)
       ∧ (∀ t id od ep,
            arguments_stand_for st tmpl input_dict output_dict
              exec_properties t id od ep →
            arguments_stand_for run.2 tmpl input_dict output_dict
              exec_properties t id od ep)
       ∧ (∀ jinja2_render t id od ep,
            arguments_stand_for st tmpl input_dict output_dict
              exec_properties t id od ep →
            engine_reads_context heap_jinja2_render jinja2_render st
              input_dict output_dict exec_properties id od ep →
            same_outcome
              (λ l spec,
                 Heap.read_tmpl (Heap.heap run.2) l = Some (FreeText spec))
              run.1
              (resolve_container_template jinja2_render t id od ep
                 (Heap.calls st)).1
            ∧ Heap.calls run.2
              = (resolve_container_template jinja2_render t id od ep
                   (Heap.calls st)).2))
  ∧ (∀ heap_jinja2_render jinja2_render t id od ep
       st tmpl input_dict output_dict exec_properties
       st' tmpl' input_dict' output_dict' exec_properties',
       let run := Heap.resolve_container_template heap_jinja2_render
                    tmpl input_dict output_dict exec_properties st in
       let run' := Heap.resolve_container_template heap_jinja2_render
                     tmpl' input_dict' output_dict' exec_properties' st' in
       arguments_stand_for st tmpl input_dict output_dict
         exec_properties t id od ep →
       arguments_stand_for st' tmpl' input_dict' output_dict'
         exec_properties' t id od ep →
       engine_reads_context heap_jinja2_render jinja2_render st
         input_dict output_dict exec_properties id od ep →
       engine_reads_context heap_jinja2_render jinja2_render st'
         input_dict' output_dict' exec_properties' id od ep →
       Heap.calls st = Heap.calls st' →
       Heap.calls run.2 = Heap.calls run'.2
       ∧ same_outcome
           (λ l l', ∃ spec,
              Heap.read_tmpl (Heap.heap run.2) l = Some (FreeText spec)
              ∧ Heap.read_tmpl (Heap.heap run'.2) l' = Some (FreeText spec))
           run.1 run'.1).
Proof.
  assert (∀ heap_jinja2_render tmpl input_dict output_dict exec_properties st
            jinja2_render t id od ep,
            let run := Heap.resolve_container_template heap_jinja2_render
                         tmpl input_dict output_dict exec_properties st in
            arguments_stand_for st tmpl input_dict output_dict
              exec_properties t id od ep →
            engine_reads_context heap_jinja2_render jinja2_render st
              input_dict output_dict exec_properties id od ep →
            same_outcome
              (λ l spec,
                 Heap.read_tmpl (Heap.heap run.2) l = Some (FreeText spec))
              run.1
              (resolve_container_template jinja2_render t id od ep
                 (Heap.calls st)).1
            ∧ Heap.calls run.2
              = (resolve_container_template jinja2_render t id od ep
                   (Heap.calls st)).2) as Hrefines.
  { intros heap_jinja2_render tmpl input_dict output_dict exec_properties
      [h c] jinja2_render t id od ep run (Hread & Hi & Ho & He) Hengine.
    destruct (heap_resolve_container_template_spec heap_jinja2_render
                tmpl input_dict output_dict exec_properties h c)
      as (r & extra & c' & Hrun & Href).
    subst run. rewrite Hrun. cbn [fst snd Heap.heap Heap.calls].
    destruct (Href jinja2_render t id od ep Hread Hi Ho He Hengine)
      as (r' & -> & Hsame). done. }
  split; [|split].
  - intros gv gi go spec_loc [h c] run.
    destruct (heap_resolve_command_line_spec gv gi go spec_loc h c)
      as (r & items & Hrun & Hloc & Href).
    subst run. rewrite Hrun. cbn [fst snd Heap.heap Heap.calls].
    split; [|split; [done|]].
    + intros l o Hl. by apply lookup_app_l_Some.
    + intros pv pi po spec Hread Hg.
      specialize (Href pv pi po spec Hread Hg).
      destruct r as [l|e]; rewrite Href; [|done].
      cbn [same_outcome]. rewrite (Hloc l eq_refl). apply lookup_snoc.
  - intros heap_jinja2_render tmpl input_dict output_dict exec_properties
      st run.
    split; [|split].
    + destruct st as [h c].
      destruct (heap_resolve_container_template_spec heap_jinja2_render
                  tmpl input_dict output_dict exec_properties h c)
        as (r & extra & c' & Hrun & _).
      subst run. rewrite Hrun. cbn [fst snd Heap.heap Heap.calls].
      intros l o Hl. by apply lookup_app_l_Some.
    + destruct st as [h c].
      destruct (heap_resolve_container_template_spec heap_jinja2_render
                  tmpl input_dict output_dict exec_properties h c)
        as (r & extra & c' & Hrun & _).
      subst run. rewrite Hrun. unfold arguments_stand_for.
      cbn [fst snd Heap.heap Heap.calls].
      intros t id od ep (Hread & Hi & Ho & He).
      split; [|split; [|split]]; try by apply lookup_app_l_Some.
      eapply heap_read_tmpl_keeps; [|done]. by apply prefix_app_r.
    + intros jinja2_render t id od ep. apply Hrefines.
  - intros heap_jinja2_render jinja2_render t id od ep
      st tmpl input_dict output_dict exec_properties
      st' tmpl' input_dict' output_dict' exec_properties'
      run run' Hargs Hargs' Hengine Hengine' Hcalls.
    destruct (Hrefines _ _ _ _ _ _ _ _ _ _ _ Hargs Hengine) as [Hsame Hc].
    destruct (Hrefines _ _ _ _ _ _ _ _ _ _ _ Hargs' Hengine')
      as [Hsame' Hc'].
    fold run in Hsame, Hc. fold run' in Hsame', Hc'.
    rewrite <- Hcalls in Hsame', Hc'. split; [congruence|].
    destruct (resolve_container_template jinja2_render t id od ep
                (Heap.calls st)).1 as [spec|e];
      destruct run.1, run'.1; simpl in *; try done; [eauto|congruence].
Qed.

(** A store with a template in typed-placeholder mode and the three
    dictionaries, and the store after the call. *)
Example resolve_container_template_on_a_store :
  let h := [ Heap.OList [VStr "run"; InputValuePlaceholder "epochs"];
             Heap.OContainerSpec (VStr "img") (Some 0);
             Heap.OArtifactDict ∅; Heap.OArtifactDict ∅;
             Heap.OProperties {[ "epochs" := VStr "10" ]} ] in
  Heap.resolve_container_template (λ _ _ _, Raise TemplateSyntaxError)
    1 2 3 4 {| Heap.heap := h; Heap.calls := [] |}
  = (Ok 8,
     {| Heap.heap :=
          h ++ [ Heap.OContext 2 3 4;
                 Heap.OList [VStr "run"; VStr "10"];
                 Heap.OList [];
                 Heap.OExecutorContainerSpec (VStr "img") (Some 6) (Some 7) ];
        Heap.calls := [] |}).
Proof. reflexivity. Qed.

Lemma resolution_leaves_inputs_unchanged_witness :
  let h := [ Heap.OList [VStr "{{ exec_properties['n'] }}"];
             Heap.OExecutorContainerSpec (VStr "img") (Some 0) None;
             Heap.OArtifactDict ∅; Heap.OArtifactDict ∅;
             Heap.OProperties {[ "n" := VStr "42" ]} ] in
  let run := Heap.resolve_container_template (λ text _ _, Ok text)
               1 2 3 4 {| Heap.heap := h; Heap.calls := [] |} in
  Heap.read_tmpl (Heap.heap run.2) 1
  = Some (FreeText {| executor_spec.image := VStr "img";
                      executor_spec.command :=
                        Some [VStr "{{ exec_properties['n'] }}"];
                      executor_spec.args := None |})
  ∧ Heap.heap run.2 !! 4 = Some (Heap.OProperties {[ "n" := VStr "42" ]}).
Proof.
  intros h run.
  destruct (proj1 (proj2 resolution_leaves_inputs_unchanged)
              (λ text _ _, Ok text) 1 2 3 4
              {| Heap.heap := h; Heap.calls := [] |})
    as (Hobjects & Hargs & _).
  split.
  - apply (Hargs _ ∅ ∅ {[ "n" := VStr "42" ]}). by repeat split.
  - apply Hobjects. reflexivity.
Defined.

(** * Further properties *)

(** ** Lists of results *)

Lemma mapM_result_ext_in {A B} (f g : A → result B) (l : list A) :
  (∀ x, x ∈ l → f x = g x) → mapM f l = mapM g l.
Proof.
  induction l as [|x l IH]; intros Hfg; simpl; [done|].
  rewrite (Hfg x) by left. destruct (g x); simpl; [|done].
  rewrite IH; [done|]. intros y Hy. apply Hfg. by right.
Qed.

Lemma mapM_result_Raise_elem {A B} (f : A → result B) (l : list A) e :
  mapM f l = Raise e → ∃ x, x ∈ l ∧ f x = Raise e.
Proof.
  induction l as [|x l IH]; simpl; [done|].
  destruct (f x) as [y|e'] eqn:Hx; simpl.
  - destruct (mapM f l) as [k|e'']; simpl; [done|].
    intros [= ->]. destruct IH as (x' & Hin & Hx'); [done|].
    exists x'. split; [by right|done].
  - intros [= ->]. exists x. split; [left|done].
Qed.

Lemma mapM_result_is_Ok {A B} (f : A → result B) (l : list A) :
  is_Ok (mapM f l) = forallb (λ x, is_Ok (f x)) l.
Proof.
  induction l as [|x l IH]; simpl; [done|].
  destruct (f x); simpl; [|done]. rewrite <- IH.
  by destruct (mapM f l).
Qed.

Lemma mapM_result_fixed {A} (f : A → result A) (l : list A) :
  Forall (λ x, f x = Ok x) l → mapM f l = Ok l.
Proof.
  induction 1 as [|x l Hx _ IH]; simpl; [done|]. by rewrite Hx, IH.
Qed.

(** ** More on the resolver *)

(** The call looks at the getters only for the names in the command. *)
Lemma resolve_command_line_ext gv gi go gv' gi' go' spec :
  (∀ name, InputValuePlaceholder name
           ∈ or_empty (structures.command spec) → gv name = gv' name) →
  (∀ name, InputUriPlaceholder name
           ∈ or_empty (structures.command spec) → gi name = gi' name) →
  (∀ name, OutputUriPlaceholder name
           ∈ or_empty (structures.command spec) → go name = go' name) →
  resolve_command_line gv gi go spec = resolve_command_line gv' gi' go' spec.
Proof.
  intros Hv Hi Ho. rewrite !resolve_command_line_mapM.
  apply mapM_result_ext_in. intros tok Htok. unfold resolve_token.
  destruct tok; simpl; try done.
  - by rewrite Hv.
  - by rewrite Hi.
  - by rewrite Ho.
Qed.

Lemma input_uri_getter_first_uri (d : gmap string (list Artifact)) name :
  input_uri_getter d name =
  match first_uri d name with
  | None => Raise KeyError
  | Some None => Raise IndexError
  | Some (Some u) => Ok (VStr u)
  end.
Proof.
  rewrite input_uri_getter_unfold. unfold first_uri.
  by destruct (d !! name) as [[|a rest]|].
Qed.

Lemma output_uri_getter_first_uri (d : gmap string (list Artifact)) name :
  output_uri_getter d name =
  match first_uri d name with
  | None => Raise KeyError
  | Some None => Raise IndexError
  | Some (Some u) => Ok (VStr u)
  end.
Proof.
  rewrite output_uri_getter_unfold. unfold first_uri.
  by destruct (d !! name) as [[|a rest]|].
Qed.

(** X1. The resolution of a command made of two parts is the resolution of
    the first part followed by the resolution of the second, and fails with
    the error of the first part if that one fails, else with the error of
    the second. *)
Theorem resolve_command_line_app
    (gv gi go : string → result value) (image image1 image2 : value)
    (pre post : list value) :
  resolve_command_line gv gi go
    {| structures.image := image; structures.command := Some (pre ++ post) |}
  = l1 ← resolve_command_line gv gi go
           {| structures.image := image1; structures.command := Some pre |};
    l2 ← resolve_command_line gv gi go
           {| structures.image := image2; structures.command := Some post |};
    Ok (l1 ++ l2).
Proof.
  rewrite !resolve_command_line_mapM. cbn [structures.command].
  rewrite !or_empty_Some. apply mapM_result_app.
Qed.

(** X2. A list that the call returns is a command that resolves to itself,
    whatever the getters: resolving twice is resolving once. *)
Theorem resolve_command_line_idempotent
    (gv gi go gv' gi' go' : string → result value)
    (spec : structures.ContainerSpec) (image : value) (l : list value) :
  resolve_command_line gv gi go spec = Ok l →
  resolve_command_line gv' gi' go'
    {| structures.image := image; structures.command := Some l |} = Ok l.
Proof.
  intros Hl. apply resolve_command_line_Ok in Hl.
  apply resolve_command_line_Ok. cbn [structures.command].
  rewrite or_empty_Some.
  induction Hl as [|tok v toks vs Hr _ IH]; constructor; [|done].
  destruct Hr; constructor.
Qed.

Lemma resolve_command_line_idempotent_witness :
  resolve_command_line (λ _, Raise KeyError) (λ _, Raise KeyError)
    (λ _, Raise KeyError)
    {| structures.image := VNone;
       structures.command := Some [VStr "run"; VStr "10"] |}
  = Ok [VStr "run"; VStr "10"].
Proof.
  apply (resolve_command_line_idempotent
           (input_value_getter {[ "epochs" := VStr "10" ]})
           (input_uri_getter ∅) (output_uri_getter ∅)
           (λ _, Raise KeyError) (λ _, Raise KeyError) (λ _, Raise KeyError)
           {| structures.image := VStr "img";
              structures.command :=
                Some [VStr "run"; InputValuePlaceholder "epochs"] |}).
  reflexivity.
Defined.

(** X3. The call reads the dictionaries only where the command points:
    two triples of dictionaries that agree on the properties named by the
    [InputValuePlaceholder]s of the command, and on the first artifact's
    [uri] for the names of its [InputUriPlaceholder]s and
    [OutputUriPlaceholder]s, give the same result or the same error.  So a
    property that no token names can be added or changed freely. *)
Theorem resolve_command_line_for_non_managed_reads_referenced
    (spec : structures.ContainerSpec)
    (input_dict output_dict input_dict' output_dict'
       : gmap string (list Artifact))
    (exec_properties exec_properties' : gmap string value) :
  let tokens := or_empty (structures.command spec) in
  (∀ name, InputValuePlaceholder name ∈ tokens →
           exec_properties !! name = exec_properties' !! name) →
  (∀ name, InputUriPlaceholder name ∈ tokens →
           first_uri input_dict name = first_uri input_dict' name) →
  (∀ name, OutputUriPlaceholder name ∈ tokens →
           first_uri output_dict name = first_uri output_dict' name) →
  resolve_command_line_for_non_managed
    spec input_dict output_dict exec_properties
  = resolve_command_line_for_non_managed
      spec input_dict' output_dict' exec_properties'
  ∧ ∀ name v,
      InputValuePlaceholder name ∉ tokens →
      resolve_command_line_for_non_managed
        spec input_dict output_dict (<[name := v]> exec_properties)
      = resolve_command_line_for_non_managed
          spec input_dict output_dict exec_properties.
Proof.
  intros tokens Hv Hi Ho. split.
  - apply resolve_command_line_ext.
    + intros name Hin. unfold input_value_getter, dict_getitem.
      by rewrite (Hv name Hin).
    + intros name Hin. rewrite !input_uri_getter_first_uri.
      by rewrite (Hi name Hin).
    + intros name Hin. rewrite !output_uri_getter_first_uri.
      by rewrite (Ho name Hin).
  - intros name v Hname. apply resolve_command_line_ext; [|done|done].
    intros name' Hin. unfold input_value_getter, dict_getitem.
    rewrite lookup_insert_ne; [done|]. by intros ->.
Qed.

Lemma resolve_command_line_for_non_managed_reads_referenced_witness :
  resolve_command_line_for_non_managed
    {| structures.image := VStr "img";
       structures.command :=
         Some [VStr "run"; InputValuePlaceholder "epochs"] |}
    ∅ ∅ {[ "epochs" := VStr "10" ]}
  = resolve_command_line_for_non_managed
      {| structures.image := VStr "img";
         structures.command :=
           Some [VStr "run"; InputValuePlaceholder "epochs"] |}
      {[ "unused" := [] ]} ∅
      (<[ "lr" := VInt 3 ]> {[ "epochs" := VStr "10" ]}).
Proof.
  refine (proj1 (resolve_command_line_for_non_managed_reads_referenced
    {| structures.image := VStr "img";
       structures.command :=
         Some [VStr "run"; InputValuePlaceholder "epochs"] |}
    ∅ ∅ {[ "unused" := [] ]} ∅
    {[ "epochs" := VStr "10" ]}
    (<[ "lr" := VInt 3 ]> {[ "epochs" := VStr "10" ]}) _ _ _)).
  - intros name [Heq|Hin]%elem_of_cons; [done|].
    apply elem_of_cons in Hin as [[= ->]|Hin]; [reflexivity|].
    by apply elem_of_nil in Hin.
  - intros name [Heq|Hin]%elem_of_cons; [done|].
    apply elem_of_cons in Hin as [Heq|Hin]; [done|].
    by apply elem_of_nil in Hin.
  - intros name [Heq|Hin]%elem_of_cons; [done|].
    apply elem_of_cons in Hin as [Heq|Hin]; [done|].
    by apply elem_of_nil in Hin.
Defined.

(** X4. Of the artifacts under a name only the first is looked at: cutting
    every list of artifacts down to its first element changes nothing. *)
Theorem resolve_command_line_for_non_managed_first_artifact
    (spec : structures.ContainerSpec)
    (input_dict output_dict : gmap string (list Artifact))
    (exec_properties : gmap string value) :
  resolve_command_line_for_non_managed spec
    (take 1 <$> input_dict) (take 1 <$> output_dict) exec_properties
  = resolve_command_line_for_non_managed
      spec input_dict output_dict exec_properties.
Proof.
  assert (∀ (d : gmap string (list Artifact)) name,
            first_uri (take 1 <$> d) name = first_uri d name) as Hfirst.
  { intros d name. unfold first_uri. rewrite lookup_fmap.
    by destruct (d !! name) as [[|a rest]|]. }
  apply resolve_command_line_ext; [done| |].
  - intros name _. by rewrite !input_uri_getter_first_uri, Hfirst.
  - intros name _. by rewrite !output_uri_getter_first_uri, Hfirst.
Qed.

(** X5. The errors of the call over the three dictionaries are four, each
    with its cause in the command: [TypeError] for a token that is neither a
    string nor a placeholder, [AssertionError] for a property that is not a
    string, [KeyError] for a name that is absent, [IndexError] for an empty
    list of artifacts.  The two URI getters never make the assertion
    fail. *)
Theorem resolve_command_line_for_non_managed_errors
    (spec : structures.ContainerSpec)
    (input_dict output_dict : gmap string (list Artifact))
    (exec_properties : gmap string value) (e : exn) :
  let tokens := or_empty (structures.command spec) in
  resolve_command_line_for_non_managed
    spec input_dict output_dict exec_properties = Raise e →
  (e = TypeError ∧ ∃ tok, tok ∈ tokens ∧ is_command_token tok = false)
  ∨ (e = AssertionError
     ∧ ∃ name v, InputValuePlaceholder name ∈ tokens
                 ∧ exec_properties !! name = Some v
                 ∧ isinstance_str v = false)
  ∨ (e = KeyError
     ∧ ∃ name,
         (InputValuePlaceholder name ∈ tokens
          ∧ exec_properties !! name = None)
         ∨ (InputUriPlaceholder name ∈ tokens ∧ input_dict !! name = None)
         ∨ (OutputUriPlaceholder name ∈ tokens
            ∧ output_dict !! name = None))
  ∨ (e = IndexError
     ∧ ∃ name,
         (InputUriPlaceholder name ∈ tokens ∧ input_dict !! name = Some [])
         ∨ (OutputUriPlaceholder name ∈ tokens
            ∧ output_dict !! name = Some [])).
Proof.
  intros tokens. unfold resolve_command_line_for_non_managed.
  rewrite resolve_command_line_mapM. intros Hfail.
  apply mapM_result_Raise_elem in Hfail as (tok & Hin & Htok).
  fold tokens in Hin. unfold resolve_token in Htok.
  destruct tok; simpl in Htok;
    try (injection Htok as <-; left; split; [done|]; by eexists).
  - done.
  - unfold input_value_getter, dict_getitem in Htok.
    destruct (exec_properties !! input_name) as [v|] eqn:Hv; simpl in Htok.
    + destruct (isinstance_str v) eqn:Hstr; simpl in Htok; [done|].
      injection Htok as <-. right; left. split; [done|]. eauto.
    + injection Htok as <-. right; right; left. split; [done|]. eauto.
  - rewrite input_uri_getter_unfold in Htok.
    destruct (input_dict !! input_name) as [[|a rest]|] eqn:Hd;
      simpl in Htok; [| done |]; injection Htok as <-.
    + right; right; right. split; [done|]. eauto.
    + right; right; left. split; [done|]. eauto.
  - rewrite output_uri_getter_unfold in Htok.
    destruct (output_dict !! output_name) as [[|a rest]|] eqn:Hd;
      simpl in Htok; [| done |]; injection Htok as <-.
    + right; right; right. split; [done|]. eauto.
    + right; right; left. split; [done|]. eauto 6.
Qed.

Lemma resolve_command_line_for_non_managed_errors_witness :
  (KeyError = TypeError
   ∧ ∃ tok, tok ∈ [InputUriPlaceholder "a"] ∧ is_command_token tok = false)
  ∨ (KeyError = AssertionError
     ∧ ∃ name v, InputValuePlaceholder name ∈ [InputUriPlaceholder "a"]
                 ∧ (∅ : gmap string value) !! name = Some v
                 ∧ isinstance_str v = false)
  ∨ (KeyError = KeyError
     ∧ ∃ name,
         (InputValuePlaceholder name ∈ [InputUriPlaceholder "a"]
          ∧ (∅ : gmap string value) !! name = None)
         ∨ (InputUriPlaceholder name ∈ [InputUriPlaceholder "a"]
            ∧ (∅ : gmap string (list Artifact)) !! name = None)
         ∨ (OutputUriPlaceholder name ∈ [InputUriPlaceholder "a"]
            ∧ (∅ : gmap string (list Artifact)) !! name = None))
  ∨ (KeyError = IndexError
     ∧ ∃ name,
         (InputUriPlaceholder name ∈ [InputUriPlaceholder "a"]
          ∧ (∅ : gmap string (list Artifact)) !! name = Some [])
         ∨ (OutputUriPlaceholder name ∈ [InputUriPlaceholder "a"]
            ∧ (∅ : gmap string (list Artifact)) !! name = Some [])).
Proof.
  apply (resolve_command_line_for_non_managed_errors
           (single (VStr "img") (InputUriPlaceholder "a")) ∅ ∅ ∅ KeyError).
  reflexivity.
Defined.

Lemma resolve_token_resolvable
    (input_dict output_dict : gmap string (list Artifact))
    (exec_properties : gmap string value) (tok : value) :
  is_Ok (resolve_token (input_value_getter exec_properties)
           (input_uri_getter input_dict) (output_uri_getter output_dict)
           tok)
  = token_resolvable input_dict output_dict exec_properties tok.
Proof.
  unfold resolve_token. destruct tok; simpl; try done.
  - unfold input_value_getter, dict_getitem.
    by destruct (exec_properties !! input_name) as [[]|].
  - rewrite input_uri_getter_unfold.
    by destruct (input_dict !! input_name) as [[|a rest]|].
  - rewrite output_uri_getter_unfold.
    by destruct (output_dict !! output_name) as [[|a rest]|].
Qed.

(** X6. The call over the three dictionaries returns a list exactly when
    every token of the command resolves on its own: a string, a placeholder
    for a property that is a string, or a placeholder for a name with at
    least one artifact. *)
Theorem resolve_command_line_for_non_managed_returns
    (spec : structures.ContainerSpec)
    (input_dict output_dict : gmap string (list Artifact))
    (exec_properties : gmap string value) :
  is_Ok (resolve_command_line_for_non_managed
           spec input_dict output_dict exec_properties)
  = forallb (token_resolvable input_dict output_dict exec_properties)
            (or_empty (structures.command spec)).
Proof.
  unfold resolve_command_line_for_non_managed.
  rewrite resolve_command_line_mapM, mapM_result_is_Ok.
  induction (or_empty (structures.command spec)) as [|tok toks IH];
    simpl; [done|].
  by rewrite resolve_token_resolvable, IH.
Qed.

(** ** More on the rendering *)

Section RenderingRuns.
Variable jinja2_render : value → context → result value.
Variable ctx : context.

Lemma render_each_run items calls :
  match render_each jinja2_render items ctx calls with
  | (Ok l, calls') =>
      calls' = calls ++ items
      ∧ Forall2 (λ text rendered, jinja2_render text ctx = Ok rendered)
                items l
  | (Raise e, calls') =>
      ∃ pre text post,
        items = pre ++ text :: post
        ∧ Forall (λ t, is_Ok (jinja2_render t ctx) = true) pre
        ∧ jinja2_render text ctx = Raise e
        ∧ calls' = calls ++ pre ++ [text]
  end.
Proof.
  revert calls. induction items as [|item items IH]; intros calls.
  - simpl. rewrite app_nil_r. split; [done|constructor].
  - rewrite render_each_cons.
    destruct (jinja2_render item ctx) as [rendered|e] eqn:Hitem.
    + specialize (IH (calls ++ [item])).
      destruct (render_each jinja2_render items ctx (calls ++ [item]))
        as [[l|e] calls'].
      * destruct IH as [-> Hall]. rewrite <- app_assoc.
        split; [done|by constructor].
      * destruct IH as (pre & text & post & -> & Hpre & Htext & ->).
        exists (item :: pre), text, post. rewrite <- !app_assoc.
        repeat split; [|done]. constructor; [by rewrite Hitem|done].
    + exists [], item, items. by repeat split.
Qed.

Lemma _render_items_run items calls :
  match _render_items jinja2_render items ctx calls with
  | (Ok out, calls') =>
      calls' = calls ++ or_empty items
      ∧ Forall (λ t, is_Ok (jinja2_render t ctx) = true) (or_empty items)
      ∧ field_rendered jinja2_render ctx items out
  | (Raise e, calls') =>
      ∃ pre text post,
        or_empty items = pre ++ text :: post
        ∧ Forall (λ t, is_Ok (jinja2_render t ctx) = true) pre
        ∧ jinja2_render text ctx = Raise e
        ∧ calls' = calls ++ pre ++ [text]
  end.
Proof.
  unfold _render_items, field_rendered.
  destruct (is_empty items) eqn:Hempty.
  - replace (or_empty items) with (@nil value)
      by (by destruct items as [[|]|]).
    cbn. rewrite app_nil_r. by repeat split.
  - rewrite run_bind. pose proof (render_each_run (or_empty items) calls) as H.
    destruct (render_each jinja2_render (or_empty items) ctx calls)
      as [[l|e] calls']; [|done].
    destruct H as [-> Hall]. cbn. split; [done|]. split; [|eauto].
    clear Hempty. induction Hall as [|t r ts rs Ht _ IH]; constructor;
      [by rewrite Ht|done].
Qed.
End RenderingRuns.

(** X7. In free-text mode a call that returns keeps the shape of the
    template: the image is the rendering of the template's image, an absent
    [command] or [args] stays absent, and a list comes back as a list of the
    same length. *)
Theorem resolve_container_template_free_text_shape
    (jinja2_render : value → context → result value)
    (spec r : executor_spec.ExecutorContainerSpec)
    (input_dict output_dict : gmap string (list Artifact))
    (exec_properties : gmap string value) (calls : list value) :
  (resolve_container_template jinja2_render (FreeText spec)
     input_dict output_dict exec_properties calls).1 = Ok r →
  jinja2_render (executor_spec.image spec)
    {| ctx_input_dict := input_dict; ctx_output_dict := output_dict;
       ctx_exec_properties := exec_properties |}
  = Ok (executor_spec.image r)
  ∧ length <$> executor_spec.command r
    = length <$> executor_spec.command spec
  ∧ length <$> executor_spec.args r = length <$> executor_spec.args spec.
Proof.
  assert (∀ ctx items out,
            field_rendered jinja2_render ctx items out →
            length <$> out = length <$> items) as Hshape.
  { intros ctx items out. unfold field_rendered.
    destruct (is_empty items) eqn:Hempty; [by intros ->|].
    intros (l & -> & Hall). apply Forall2_length in Hall.
    destruct items as [[|x items]|]; try done. simpl in *. by rewrite Hall. }
  rewrite resolve_container_template_free_text_unfold. cbn zeta.
  destruct (jinja2_render _ _) as [image|e]; [|done].
  pose proof (_render_items_run jinja2_render
                {| ctx_input_dict := input_dict;
                   ctx_output_dict := output_dict;
                   ctx_exec_properties := exec_properties |}
                (executor_spec.command spec)
                (calls ++ [executor_spec.image spec])) as Hc.
  destruct (_render_items jinja2_render (executor_spec.command spec) _ _)
    as [[command|e] calls1]; [|done].
  pose proof (_render_items_run jinja2_render
                {| ctx_input_dict := input_dict;
                   ctx_output_dict := output_dict;
                   ctx_exec_properties := exec_properties |}
                (executor_spec.args spec) calls1) as Ha.
  destruct (_render_items jinja2_render (executor_spec.args spec) _ _)
    as [[args|e] calls2]; [|done].
  intros [= <-]. cbn.
  destruct Hc as (_ & _ & Hc). destruct Ha as (_ & _ & Ha).
  split; [done|]. split; by eapply Hshape.
Qed.

Lemma resolve_container_template_free_text_shape_witness :
  (λ text _, Ok text) (VStr "img")
    {| ctx_input_dict := ∅; ctx_output_dict := ∅;
       ctx_exec_properties := (∅ : gmap string value) |}
  = Ok (VStr "img")
  ∧ length <$> Some [VStr "a"; VStr "b"] = length <$> Some [VStr "a"; VStr "b"]
  ∧ length <$> (None : option (list value))
    = length <$> (None : option (list value)).
Proof.
  apply (resolve_container_template_free_text_shape
           (λ text _, Ok text)
           {| executor_spec.image := VStr "img";
              executor_spec.command := Some [VStr "a"; VStr "b"];
              executor_spec.args := None |}
           {| executor_spec.image := VStr "img";
              executor_spec.command := Some [VStr "a"; VStr "b"];
              executor_spec.args := None |} ∅ ∅ ∅ []).
  reflexivity.
Defined.

(** X8. In free-text mode the call stops at the first text the engine
    rejects: it ends in the error of that text, the texts before it were
    rendered, and no text after it is handed to the engine. *)
Theorem resolve_container_template_free_text_fails_fast
    (jinja2_render : value → context → result value)
    (spec : executor_spec.ExecutorContainerSpec)
    (input_dict output_dict : gmap string (list Artifact))
    (exec_properties : gmap string value) (calls : list value) (e : exn) :
  let ctx := {| ctx_input_dict := input_dict;
                ctx_output_dict := output_dict;
                ctx_exec_properties := exec_properties |} in
  let run := resolve_container_template jinja2_render (FreeText spec)
               input_dict output_dict exec_properties calls in
  let texts := executor_spec.image spec
               :: or_empty (executor_spec.command spec)
               ++ or_empty (executor_spec.args spec) in
  run.1 = Raise e →
  ∃ pre text post,
    texts = pre ++ text :: post
    ∧ Forall (λ t, is_Ok (jinja2_render t ctx) = true) pre
    ∧ jinja2_render text ctx = Raise e
    ∧ run.2 = calls ++ pre ++ [text].
Proof.
  intros ctx run texts. subst run.
  rewrite resolve_container_template_free_text_unfold. fold ctx.
  destruct (jinja2_render (executor_spec.image spec) ctx)
    as [image|e'] eqn:Himage.
  2:{ intros [= ->]. exists [], (executor_spec.image spec),
        (or_empty (executor_spec.command spec)
           ++ or_empty (executor_spec.args spec)). by repeat split. }
  assert (is_Ok (jinja2_render (executor_spec.image spec) ctx) = true)
    as Himage_ok by (by rewrite Himage).
  pose proof (_render_items_run jinja2_render ctx
                (executor_spec.command spec)
                (calls ++ [executor_spec.image spec])) as Hc.
  destruct (_render_items jinja2_render (executor_spec.command spec) _ _)
    as [[command|e'] calls1].
  2:{ intros [= ->].
      destruct Hc as (pre & text & post & Hcmd & Hpre & Htext & ->).
      exists (executor_spec.image spec :: pre), text,
        (post ++ or_empty (executor_spec.args spec)).
      unfold texts. rewrite Hcmd. cbn [fst snd].
      split; [by simpl; rewrite <- !app_assoc|].
      split; [|split; [done|by simpl; rewrite <- !app_assoc]].
      by constructor. }
  destruct Hc as (-> & Hc_ok & _).
  pose proof (_render_items_run jinja2_render ctx
                (executor_spec.args spec)
                ((calls ++ [executor_spec.image spec])
                   ++ or_empty (executor_spec.command spec))) as Ha.
  destruct (_render_items jinja2_render (executor_spec.args spec) _ _)
    as [[args|e'] calls2]; [done|].
  intros [= ->].
  destruct Ha as (pre & text & post & Hargs & Hpre & Htext & ->).
  exists (executor_spec.image spec
          :: or_empty (executor_spec.command spec) ++ pre), text, post.
  unfold texts. rewrite Hargs. cbn [fst snd].
  split; [by simpl; rewrite <- !app_assoc|].
  split; [|split; [done|by simpl; rewrite <- !app_assoc]].
  constructor; [done|]. by apply Forall_app.
Qed.

Lemma resolve_container_template_free_text_fails_fast_witness :
  ∃ pre text post,
    [VStr "img"; VStr "{{"; VStr "b"] = pre ++ text :: post
    ∧ Forall (λ t, is_Ok (if isinstance_str t
                           then match t with
                                | VStr "{{" => Raise TemplateSyntaxError
                                | _ => Ok t
                                end
                           else Raise TypeError) = true) pre
    ∧ (if isinstance_str text
       then match text with
            | VStr "{{" => Raise TemplateSyntaxError
            | _ => Ok text
            end
       else Raise TypeError) = Raise TemplateSyntaxError
    ∧ [VStr "img"; VStr "{{"] = [] ++ pre ++ [text].
Proof.
  apply (resolve_container_template_free_text_fails_fast
           (λ t _, if isinstance_str t
                   then match t with
                        | VStr "{{" => Raise TemplateSyntaxError
                        | _ => Ok t
                        end
                   else Raise TypeError)
           {| executor_spec.image := VStr "img";
              executor_spec.command := Some [VStr "{{"; VStr "b"];
              executor_spec.args := None |} ∅ ∅ ∅ []
           TemplateSyntaxError).
  reflexivity.
Defined.

(** X9. In free-text mode a template whose texts the engine renders to
    themselves, as it does for texts without template expressions, is
    returned as it is, and the engine has seen each of its texts once, in
    order. *)
Theorem resolve_container_template_free_text_identity
    (jinja2_render : value → context → result value)
    (spec : executor_spec.ExecutorContainerSpec)
    (input_dict output_dict : gmap string (list Artifact))
    (exec_properties : gmap string value) (calls : list value) :
  let ctx := {| ctx_input_dict := input_dict;
                ctx_output_dict := output_dict;
                ctx_exec_properties := exec_properties |} in
  let texts := executor_spec.image spec
               :: or_empty (executor_spec.command spec)
               ++ or_empty (executor_spec.args spec) in
  Forall (λ text, jinja2_render text ctx = Ok text) texts →
  resolve_container_template jinja2_render (FreeText spec)
    input_dict output_dict exec_properties calls
  = (Ok spec, calls ++ texts).
Proof.
  intros ctx texts Hid.
  assert (∀ items calls0,
            Forall (λ text, jinja2_render text ctx = Ok text)
                   (or_empty items) →
            _render_items jinja2_render items ctx calls0
            = (Ok items, calls0 ++ or_empty items)) as Hitems.
  { intros items calls0 Hall.
    pose proof (_render_items_run jinja2_render ctx items calls0) as H.
    destruct (_render_items jinja2_render items ctx calls0)
      as [[out|e] calls']; cycle 1.
    - destruct H as (pre & text & post & Heq & _ & Htext & _).
      rewrite Heq in Hall. apply Forall_app in Hall as [_ Hall].
      apply Forall_cons in Hall as [Hall _]. congruence.
    - destruct H as (-> & _ & Hfield). f_equal. f_equal.
      unfold field_rendered in Hfield.
      destruct (is_empty items) eqn:Hempty; [done|].
      destruct Hfield as (l & -> & Hl).
      destruct items as [[|x items]|]; try done. f_equal. symmetry.
      simpl in Hall, Hl. revert Hall. clear Hempty.
      generalize dependent (x :: items). clear x items.
      induction 1 as [|t r ts rs Ht _ IH]; intros Hall; [done|].
      apply Forall_cons in Hall as [Hx Hall].
      rewrite Hx in Ht. injection Ht as <-. by rewrite IH. }
  unfold texts in Hid. apply Forall_cons in Hid as [Himage Hid].
  apply Forall_app in Hid as [Hcommand Hargs].
  rewrite resolve_container_template_free_text_unfold. fold ctx.
  rewrite Himage, (Hitems _ _ Hcommand), (Hitems _ _ Hargs).
  unfold texts. rewrite <- !app_assoc. by destruct spec.
Qed.

Lemma resolve_container_template_free_text_identity_witness :
  resolve_container_template (λ text _, Ok text)
    (FreeText {| executor_spec.image := VStr "img";
                 executor_spec.command := Some [VStr "python"];
                 executor_spec.args := Some [] |}) ∅ ∅ ∅ []
  = (Ok {| executor_spec.image := VStr "img";
           executor_spec.command := Some [VStr "python"];
           executor_spec.args := Some [] |},
     [] ++ [VStr "img"; VStr "python"]).
Proof.
  apply (resolve_container_template_free_text_identity
           (λ text _, Ok text)
           {| executor_spec.image := VStr "img";
              executor_spec.command := Some [VStr "python"];
              executor_spec.args := Some [] |} ∅ ∅ ∅ []).
  repeat constructor.
Defined.

(** ** More on the dictionaries in insertion order *)

Lemma dict_set_keys_present {V} (d : list (string * V)) k v :
  k ∈ dict_keys d → dict_keys (dict_set d k v) = dict_keys d.
Proof.
  induction d as [|[k0 v0] d IH]; simpl; [by intros ?%elem_of_nil|].
  destruct (String.eqb_spec k0 k) as [->|Hne]; [done|].
  intros [?|Hin]%elem_of_cons; [by subst|]. simpl. by rewrite IH.
Qed.

Lemma dict_set_NoDup {V} (d : list (string * V)) k v :
  NoDup (dict_keys d) → NoDup (dict_keys (dict_set d k v)).
Proof.
  intros Hnd. destruct (decide (k ∈ dict_keys d)) as [Hin|Hout].
  - by rewrite dict_set_keys_present.
  - rewrite dict_set_fresh by done. unfold dict_keys in *.
    rewrite map_app. simpl. apply NoDup_app. split; [done|].
    split; [|apply NoDup_singleton].
    intros k' Hk' ->%list_elem_of_singleton. done.
Qed.

Lemma dict_set_elem_of {V} (d : list (string * V)) k v k' v' :
  (k', v') ∈ dict_set d k v → (k' = k ∧ v' = v) ∨ (k', v') ∈ d.
Proof.
  induction d as [|[k0 v0] d IH]; simpl.
  - intros [= -> ->]%list_elem_of_singleton. by left.
  - destruct (String.eqb_spec k0 k) as [->|Hne].
    + intros [[= -> ->]|Hin]%elem_of_cons; [by left|]. right. by right.
    + intros [[= -> ->]|Hin]%elem_of_cons; [right; left|].
      destruct (IH Hin) as [?|?]; [by left|]. right. by right.
Qed.

Lemma dict_get_NoDup {V} (d : list (string * V)) k v :
  NoDup (dict_keys d) → (k, v) ∈ d → dict_get d k = Some v.
Proof.
  induction d as [|[k0 v0] d IH]; simpl; [by intros _ ?%elem_of_nil|].
  intros [Hfresh Hnd]%NoDup_cons [[= -> ->]|Hin]%elem_of_cons.
  - by rewrite String.eqb_refl.
  - destruct (String.eqb_spec k0 k) as [->|Hne]; [|by apply IH].
    destruct Hfresh. apply list_elem_of_fmap. by exists (k, v).
Qed.

(** ** More on the two comprehensions *)

Lemma dict_comprehension_NoDup_keys items acc out :
  dict_comprehension items acc = Ok out →
  NoDup (dict_keys acc) → NoDup (dict_keys out).
Proof.
  revert acc. induction items as [|[k v] items IH]; intros acc; simpl.
  - by intros [= <-].
  - intros H Hnd. apply result_bind_Ok in H as (w & Hw & H).
    apply (IH _ H). by apply dict_set_NoDup.
Qed.

Lemma dict_comprehension_elem_of items acc out k w :
  dict_comprehension items acc = Ok out →
  (k, w) ∈ out →
  (k, w) ∈ acc ∨ ∃ v, (k, v) ∈ items ∧ to_swagger_dict v = Ok w.
Proof.
  revert acc. induction items as [|[k0 v0] items IH]; intros acc; simpl.
  - intros [= <-] ?. by left.
  - intros H Hin. apply result_bind_Ok in H as (w0 & Hw0 & H).
    destruct (IH _ H Hin) as [Hacc|(v & Hv & Hw)].
    + apply dict_set_elem_of in Hacc as [[-> ->]|Hacc]; [|by left].
      right. exists v0. split; [left|done].
    + right. exists v. split; [by right|done].
Qed.


Lemma dict_comprehension_fixed items acc :
  NoDup (dict_keys acc ++ dict_keys items) →
  Forall (λ kv : string * value, to_swagger_dict kv.2 = Ok kv.2) items →
  dict_comprehension items acc = Ok (acc ++ items).
Proof.
  intros Hnd Hfix. revert acc Hnd.
  induction Hfix as [|[k v] items Hv _ IH]; intros acc Hnd; simpl.
  - by rewrite app_nil_r.
  - simpl in Hv. rewrite Hv. simpl.
    assert (k ∉ dict_keys acc) as Hfresh.
    { apply NoDup_app in Hnd as (_ & Hdisj & _). intros Hin.
      apply (Hdisj _ Hin). left. }
    rewrite dict_set_fresh by done. rewrite IH.
    + by rewrite <- app_assoc.
    + unfold dict_keys in *. by rewrite map_app, <- app_assoc.
Qed.

Lemma model_comprehension_NoDup_keys config table acc out :
  model_comprehension config table acc = Ok out →
  NoDup (dict_keys acc) → NoDup (dict_keys out).
Proof.
  revert acc. induction table as [|[key name] table IH]; intros acc.
  - by intros [= <-].
  - intros H Hnd. apply model_comprehension_cons in H as (v & Hv & H).
    destruct (truthy v); [|by eapply IH].
    destruct H as (w & Hw & H). apply (IH _ H). by apply dict_set_NoDup.
Qed.


Lemma model_comprehension_app config table1 table2 acc :
  model_comprehension config (table1 ++ table2) acc =
  acc1 ← model_comprehension config table1 acc;
  model_comprehension config table2 acc1.
Proof.
  revert acc. induction table1 as [|[key name] table1 IH]; intros acc;
    [done|].
  cbn [app model_comprehension].
  destruct (getattr config key) as [v|e]; cbn [mbind result_bind]; [|done].
  destruct (truthy v); [|apply IH].
  destruct (to_swagger_dict v); cbn [mbind result_bind]; [apply IH|done].
Qed.

(** Attributes that are false leave the entry of their wire name as it
    is. *)
Lemma model_comprehension_untouched config table acc out name :
  (∀ key v, (key, name) ∈ table → getattr config key = Ok v →
            truthy v = false) →
  model_comprehension config table acc = Ok out →
  dict_get out name = dict_get acc name.
Proof.
  revert acc. induction table as [|[key0 name0] table IH]; intros acc.
  - by intros _ [= <-].
  - intros Hfalse H. apply model_comprehension_cons in H as (v & Hv & H).
    assert (∀ key v, (key, name) ∈ table → getattr config key = Ok v →
                     truthy v = false) as Hfalse'.
    { intros key' v' Hin. apply Hfalse. by right. }
    destruct (truthy v) eqn:Htrue.
    + destruct H as (w & Hw & H). rewrite (IH _ Hfalse' H), dict_get_set.
      destruct (String.eqb_spec name0 name) as [->|_]; [|done].
      rewrite (Hfalse key0 v) in Htrue; [done|left|done].
    + by apply IH.
Qed.

Lemma getattr_model am attrs d key v :
  getattr (VModel am attrs d) key = Ok v →
  v = attribute_map_value am ∨ (key, v) ∈ attrs.
Proof.
  cbn [getattr]. destruct (String.eqb key "attribute_map").
  - intros [= <-]. by left.
  - unfold attr_lookup. destruct (dict_get attrs key) as [v'|] eqn:Hget;
      [|done]. intros [= <-]. right. by apply dict_get_elem_of.
Qed.

Lemma converted_attribute_map_plain am :
  plain (converted_attribute_map am) = true.
Proof.
  unfold converted_attribute_map.
  assert (∀ acc : list (string * value),
            NoDup (dict_keys acc) →
            Forall (λ kv : string * value, plain kv.2 = true) acc →
            let out := fold_left
                         (λ acc (entry : string * string),
                            dict_set acc entry.1 (VStr entry.2)) am acc in
            NoDup (dict_keys out)
            ∧ Forall (λ kv : string * value, plain kv.2 = true) out) as H.
  { induction am as [|[k n] am IH]; intros acc Hnd Hall; simpl; [done|].
    apply IH; [by apply dict_set_NoDup|].
    apply Forall_forall. intros [k' v'] Hin.
    apply dict_set_elem_of in Hin as [[-> ->]|Hin]; [done|].
    rewrite Forall_forall in Hall. by apply (Hall (k', v')). }
  destruct (H [] (NoDup_nil_2) (Forall_nil_2 _)) as [Hnd Hall].
  cbn [plain]. apply andb_true_intro. split.
  - by apply bool_decide_eq_true_2.
  - apply forallb_forall. intros kv Hin. rewrite Forall_forall in Hall.
    apply Hall. by apply list_elem_of_In.
Qed.

(** ** More on [to_swagger_dict] *)

Lemma to_swagger_dict_result_plain v :
  ∀ w, to_swagger_dict v = Ok w → plain w = true.
Proof.
  induction v as
    [|b|z|s|items IH|items IH|am attrs d IH _|cls attrs _|name|name|name]
    using value_induction; intros w; try (by intros [= <-]).
  - rewrite to_swagger_dict_list.
    destruct (mapM to_swagger_dict items) as [l|e] eqn:Hl; [|done].
    intros [= <-]. apply mapM_result_Ok in Hl. cbn [plain].
    induction Hl as [|x y xs ys Hxy _ IHl]; [done|].
    apply Forall_cons in IH as [IHx IHxs]. simpl.
    by rewrite (IHx y Hxy), IHl.
  - rewrite to_swagger_dict_dict.
    destruct (dict_comprehension items []) as [out|e] eqn:Hout; [|done].
    intros [= <-]. cbn [plain]. apply andb_true_intro. split.
    + apply bool_decide_eq_true_2.
      eapply dict_comprehension_NoDup_keys; [done|]. apply NoDup_nil_2.
    + apply forallb_forall. intros [k w] Hin%list_elem_of_In.
      destruct (dict_comprehension_elem_of _ _ _ _ _ Hout Hin)
        as [?%elem_of_nil|(v & Hv & Hw)]; [done|].
      rewrite Forall_forall in IH. by apply (IH (k, v) Hv).
  - rewrite to_swagger_dict_model.
    destruct (model_comprehension _ am []) as [out|e] eqn:Hout; [|done].
    intros [= <-]. cbn [plain]. apply andb_true_intro.
    assert (NoDup (dict_keys out)) as Hnd.
    { eapply model_comprehension_NoDup_keys; [done|]. apply NoDup_nil_2. }
    split; [by apply bool_decide_eq_true_2|].
    apply forallb_forall. intros [k w] Hin%list_elem_of_In.
    apply (dict_get_NoDup _ _ _ Hnd) in Hin.
    destruct (model_comprehension_values _ _ _ _ _ _ Hout Hin)
      as [?|(key & v & _ & Hv & _ & Hw)]; [done|].
    apply getattr_model in Hv as [->|Hv].
    + rewrite to_swagger_dict_attribute_map in Hw. injection Hw as <-.
      apply converted_attribute_map_plain.
    + rewrite Forall_forall in IH. by apply (IH (key, v) Hv).
Qed.

Lemma plain_to_swagger_dict v :
  plain v = true → to_swagger_dict v = Ok v.
Proof.
  induction v as
    [|b|z|s|items IH|items IH|am attrs d _ _|cls attrs _|name|name|name]
    using value_induction; try done.
  - cbn [plain]. intros Hplain. rewrite to_swagger_dict_list.
    rewrite mapM_result_fixed; [done|].
    rewrite forallb_forall in Hplain. rewrite Forall_forall in IH.
    apply Forall_forall. intros x Hx. apply (IH x Hx).
    apply Hplain. by apply list_elem_of_In.
  - cbn [plain]. intros [Hnd Hplain]%andb_prop.
    apply bool_decide_eq_true_1 in Hnd.
    rewrite to_swagger_dict_dict, dict_comprehension_fixed; [done|done|].
    rewrite forallb_forall in Hplain. rewrite Forall_forall in IH.
    apply Forall_forall. intros kv Hkv. apply (IH kv Hkv).
    apply (Hplain kv). by apply list_elem_of_In.
Qed.

(** X10. What the conversion returns holds no model any more, where lists
    and dictionaries lead, and its dictionaries have keys that differ; and
    the values of this kind are exactly the ones the conversion returns as
    they are. *)
Theorem to_swagger_dict_replaces_models :
  (∀ v w, to_swagger_dict v = Ok w → plain w = true)
  ∧ (∀ v, plain v = true ↔ to_swagger_dict v = Ok v).
Proof.
  split.
  - intros v. apply to_swagger_dict_result_plain.
  - intros v. split; [apply plain_to_swagger_dict|].
    apply to_swagger_dict_result_plain.
Qed.

Lemma to_swagger_dict_replaces_models_witness :
  plain (VDict [("apiVersion", VStr "v1"); ("spec", VList [VDict []])])
  = true.
Proof.
  apply (proj1 to_swagger_dict_replaces_models
           (VModel [("api_version", "apiVersion"); ("kind", "kind");
                    ("spec", "spec")]
                   [("api_version", VStr "v1"); ("kind", VNone);
                    ("spec", VList [VModel [("x", "X")] [("x", VInt 0)]
                                           None])]
                   None)).
  reflexivity.
Defined.

(** X11. Converting twice is converting once: what the conversion returns,
    it returns as it is. *)
Theorem to_swagger_dict_idempotent (v w : value) :
  to_swagger_dict v = Ok w → to_swagger_dict w = Ok w.
Proof.
  intros Hw. apply plain_to_swagger_dict.
  by eapply to_swagger_dict_result_plain.
Qed.

Lemma to_swagger_dict_idempotent_witness :
  to_swagger_dict (VList [VDict [("Kind", VStr "Pod")]; VInt 3])
  = Ok (VList [VDict [("Kind", VStr "Pod")]; VInt 3]).
Proof.
  apply (to_swagger_dict_idempotent
           (VList [VModel [("kind", "Kind"); ("name", "Name")]
                          [("kind", VStr "Pod"); ("name", VStr "")] None;
                   VInt 3])).
  reflexivity.
Defined.

(** X12. When several attributes of a model share a wire name, the entry
    under that name holds the conversion of the last of them that is
    true. *)
Theorem to_swagger_dict_last_true_attribute
    (pre post : list (string * string)) (key name : string)
    (attrs : list (string * value))
    (d : option (list (string * value))) (v out : value) :
  let am := pre ++ (key, name) :: post in
  let config := VModel am attrs d in
  to_swagger_dict config = Ok out →
  getattr config key = Ok v →
  truthy v = true →
  (∀ key' v', (key', name) ∈ post → getattr config key' = Ok v' →
              truthy v' = false) →
  ∃ fields w,
    out = VDict fields
    ∧ to_swagger_dict v = Ok w
    ∧ dict_get fields name = Some w.
Proof.
  intros am config. subst config am. rewrite to_swagger_dict_model.
  destruct (model_comprehension _ (pre ++ (key, name) :: post) [])
    as [fields|e] eqn:Hf; [|done].
  intros [= <-] Hv Htrue Hlater.
  rewrite model_comprehension_app in Hf.
  apply result_bind_Ok in Hf as (acc1 & _ & Hf).
  apply model_comprehension_cons in Hf as (v0 & Hv0 & Hf).
  rewrite Hv in Hv0. injection Hv0 as <-. rewrite Htrue in Hf.
  destruct Hf as (w & Hw & Hf). exists fields, w. repeat split; [done|].
  rewrite (model_comprehension_untouched _ _ _ _ name Hlater Hf).
  rewrite dict_get_set. by rewrite String.eqb_refl.
Qed.

Lemma to_swagger_dict_last_true_attribute_witness :
  ∃ fields w,
    VDict [("name", VStr "second")] = VDict fields
    ∧ to_swagger_dict (VStr "second") = Ok w
    ∧ dict_get fields "name" = Some w.
Proof.
  apply (to_swagger_dict_last_true_attribute
           [("a", "name")] [("c", "name")] "b" "name"
           [("a", VStr "first"); ("b", VStr "second"); ("c", VStr "")]
           None (VStr "second")).
  - reflexivity.
  - reflexivity.
  - reflexivity.
  - intros key' v' [Heq|Hin]%elem_of_cons;
      [|by apply elem_of_nil in Hin].
    injection Heq as ->. by intros [= <-].
Defined.



(** ** More on the store *)

Lemma heap_render_each_length
    (heap_jinja2_render : value → nat → list Heap.obj → result value)
    ctx_loc items h c rendered st :
  Heap.render_each heap_jinja2_render items ctx_loc
    {| Heap.heap := h; Heap.calls := c |} = (Ok rendered, st) →
  length rendered = length items.
Proof.
  revert c rendered st. induction items as [|item items IH];
    intros c rendered st.
  - by intros [= <- _].
  - rewrite heap_render_each_cons.
    destruct (heap_jinja2_render item ctx_loc h); [|done].
    destruct (Heap.render_each _ items _ _) as [[rest|e] st'] eqn:Hrest;
      [|done].
    intros [= <- _]. simpl. by rewrite (IH _ _ _ Hrest).
Qed.

Lemma heap__render_items_list
    (heap_jinja2_render : value → nat → list Heap.obj → result value)
    ctx_loc l texts h c :
  h !! l = Some (Heap.OList texts) →
  Heap._render_items heap_jinja2_render (Some l) ctx_loc
    {| Heap.heap := h; Heap.calls := c |}
  = if is_empty (Some texts)
    then (Ok (Some l), {| Heap.heap := h; Heap.calls := c |})
    else
      match Heap.render_each heap_jinja2_render texts ctx_loc
              {| Heap.heap := h; Heap.calls := c |} with
      | (Ok rendered, st) =>
          (Ok (Some (length (Heap.heap st))),
           {| Heap.heap := Heap.heap st ++ [Heap.OList rendered];
              Heap.calls := Heap.calls st |})
      | (Raise e, st) => (Raise e, st)
      end.
Proof.
  intros Hl. unfold Heap._render_items. rewrite run_bind.
  unfold Heap.reading. cbn [Heap.heap Heap.or_empty].
  unfold Heap.read_list. rewrite Hl.
  destruct (is_empty (Some texts)); [done|]. rewrite run_bind.
  by destruct (Heap.render_each _ _ _ _) as [[|] ?].
Qed.

(** X14. [_render_items] hands back the very list object it was given when
    that list is empty, and touches nothing; for a list that is not empty
    it returns a new list object of the same length and leaves the one it
    was given as it is. *)
Theorem heap__render_items_same_object_when_empty
    (heap_jinja2_render : value → nat → list Heap.obj → result value)
    (ctx_loc l : nat) (texts : list value)
    (h : list Heap.obj) (c : list value) :
  let st := {| Heap.heap := h; Heap.calls := c |} in
  let run := Heap._render_items heap_jinja2_render (Some l) ctx_loc st in
  h !! l = Some (Heap.OList texts) →
  (texts = [] → run = (Ok (Some l), st))
  ∧ (texts ≠ [] →
     ∀ out, run.1 = Ok out →
       out = Some (length h)
       ∧ out ≠ Some l
       ∧ Heap.heap run.2 !! l = Some (Heap.OList texts)
       ∧ ∃ rendered,
           Heap.heap run.2 = h ++ [Heap.OList rendered]
           ∧ length rendered = length texts).
Proof.
  intros st run Hl. subst run st.
  rewrite (heap__render_items_list _ _ _ _ _ _ Hl).
  split.
  - by intros ->.
  - intros Hne out. destruct texts as [|text texts]; [done|].
    cbn [is_empty].
    destruct (heap_render_each_spec heap_jinja2_render ctx_loc
                (text :: texts) h c) as (r & c' & Hrun & _).
    rewrite Hrun. destruct r as [rendered|e]; [|done].
    cbn [fst snd Heap.heap Heap.calls].
    intros [= <-]. pose proof (lookup_lt_Some _ _ _ Hl) as Hlt.
    split; [done|]. split; [intros [= Heq]; lia|].
    split; [by apply lookup_app_l_Some|].
    exists rendered. split; [done|]. by eapply heap_render_each_length.
Qed.

Lemma heap__render_items_same_object_when_empty_witness :
  Heap._render_items (λ text _ _, Ok text) (Some 0) 1
    {| Heap.heap := [Heap.OList []]; Heap.calls := [] |}
  = (Ok (Some 0), {| Heap.heap := [Heap.OList []]; Heap.calls := [] |}).
Proof.
  apply (proj1 (heap__render_items_same_object_when_empty
                  (λ text _ _, Ok text) 1 0 [] [Heap.OList []] []
                  eq_refl)).
  reflexivity.
Defined.

(** The list that the loop builds holds strings only. *)
Lemma heap_resolve_loop_text
    (gv gi go : string → list Heap.obj → result value) h c todo :
  ∀ acc r acc',
    Heap.resolve_loop gv gi go todo (length h)
      {| Heap.heap := h ++ [Heap.OList acc]; Heap.calls := c |}
    = (r, {| Heap.heap := h ++ [Heap.OList acc']; Heap.calls := c |}) →
    Forall (λ v, isinstance_str v = true) acc →
    Forall (λ v, isinstance_str v = true) acc'.
Proof.
  induction todo as [|tok todo IH]; intros acc r acc'.
  - intros [= _ Heq] Hall. apply app_inv_head in Heq.
    by injection Heq as <-.
  - cbn [Heap.resolve_loop]. rewrite run_bind.
    unfold Heap.reading at 1. cbn [Heap.heap].
    destruct (Heap.expand_command_line_arg gv gi go tok _) as [v|e].
    2:{ intros [= _ Heq] Hall. apply app_inv_head in Heq.
        by injection Heq as <-. }
    rewrite run_bind. unfold lift at 1.
    destruct (isinstance_str v) eqn:Hstr; cbn [assert].
    2:{ intros [= _ Heq] Hall. apply app_inv_head in Heq.
        by injection Heq as <-. }
    rewrite run_bind. unfold Heap.append at 1.
    cbn [Heap.heap Heap.calls]. rewrite lookup_snoc, insert_snoc.
    intros Hrun Hall. apply (IH _ _ _ Hrun).
    apply Forall_app. split; [done|]. by constructor.
Qed.

Lemma heap_resolve_command_line_run
    (gv gi go : string → list Heap.obj → result value) spec_loc h c :
  ∃ r items,
    Heap.resolve_command_line gv gi go spec_loc
      {| Heap.heap := h; Heap.calls := c |}
    = (r, {| Heap.heap := h ++ [Heap.OList items]; Heap.calls := c |})
    ∧ (∀ l, r = Ok l → l = length h)
    ∧ Forall (λ v, isinstance_str v = true) items.
Proof.
  unfold Heap.resolve_command_line. rewrite run_bind.
  unfold Heap.alloc at 1. cbn [Heap.heap Heap.calls].
  rewrite run_bind. unfold Heap.reading at 1. cbn [Heap.heap].
  destruct (Heap.command_of (h ++ [Heap.OList []]) spec_loc)
    as [command|e]; [|by exists (Raise e), []].
  rewrite run_bind. unfold Heap.reading at 1. cbn [Heap.heap].
  destruct (Heap.or_empty (h ++ [Heap.OList []]) command)
    as [todo|e]; [|by exists (Raise e), []].
  rewrite run_bind.
  destruct (heap_resolve_loop_spec gv gi go
              (λ name, gv name h) (λ name, gi name h) (λ name, go name h)
              todo [] h c) as (r & acc' & Hrun & _).
  rewrite Hrun.
  pose proof (heap_resolve_loop_text gv gi go h c todo [] r acc' Hrun
                (Forall_nil_2 _)) as Htext.
  destruct r as [[]|e].
  - exists (Ok (length h)), acc'. split; [done|].
    split; [by intros l [= <-]|done].
  - exists (Raise e), acc'. by repeat split.
Qed.

(** X15. Whatever its outcome, [resolve_command_line] creates exactly one
    object, a list of strings, and changes nothing else; the reference it
    returns is the one of that list, which no object had before the call,
    so the caller never gets the [command] list of the specification
    itself. *)
Theorem heap_resolve_command_line_new_list
    (gv gi go : string → list Heap.obj → result value)
    (spec_loc : nat) (st : Heap.state) :
  let run := Heap.resolve_command_line gv gi go spec_loc st in
  ∃ items,
    run.2 = {| Heap.heap := Heap.heap st ++ [Heap.OList items];
               Heap.calls := Heap.calls st |}
    ∧ Forall (λ v, isinstance_str v = true) items
    ∧ ∀ l, run.1 = Ok l →
        Heap.heap st !! l = None
        ∧ Heap.heap run.2 !! l = Some (Heap.OList items).
Proof.
  destruct st as [h c]. intros run. subst run.
  destruct (heap_resolve_command_line_run gv gi go spec_loc h c)
    as (r & items & Hrun & Hloc & Htext).
  rewrite Hrun. cbn [fst snd Heap.heap Heap.calls].
  exists items. split; [done|]. split; [done|].
  intros l Hl. rewrite (Hloc l Hl).
  split; [by apply lookup_ge_None_2|apply lookup_snoc].
Qed.
